(** * Product quantizer (fastText, [src/productquantizer.cc])

    A shallow embedding of the product quantizer and the verification of
    its specification.

    Conventions of the embedding.
    - [int32_t] values are integers of [Z].  Signed overflow is undefined
      in C++, so the model computes the mathematical value; [/] and [%]
      are the truncating [Z.quot] and [Z.rem].  Where the operands are
      read from a stream ([load]), and so are not bounded by any
      precondition, the product is reduced to 32 bits as the machine
      does.  [uint8_t] values are integers reduced modulo 256 where the
      source casts.
    - [real] (a binary floating-point type in the source) is the field of
      rationals [Q]: arithmetic is exact, rounding, infinities and NaN are
      outside the model.  Equalities between computed reals are stated
      with [==].
    - A raw pointer is a flat buffer (a list) together with an offset.
      Reads outside the buffer yield the default value and writes outside
      are dropped (both are undefined in the source).
    - The random engine is an interface ([Rng]); the training constants of
      the header are an interface too ([Consts]).
    - The only unbounded loop (the donor search of [MStep]) takes fuel. *)

From Stdlib Require Import ZArith QArith Qround Lia Lqa.
From stdpp Require Import base tactics option list numbers.

Local Open Scope Z_scope.

(** ** Counted loops *)

(** [for (auto i = lo; i < hi; i++) s = body i s], the iterations counted
    down so that the last one is outermost. *)
Fixpoint iter_up {S : Type} (cnt : nat) (lo : Z) (body : Z → S → S) (s : S) : S :=
  match cnt with
  | O => s
  | Datatypes.S c => body (lo + Z.of_nat c) (iter_up c lo body s)
  end.

Definition for_range {S : Type} (lo hi : Z) (body : Z → S → S) (s : S) : S :=
  iter_up (Z.to_nat (hi - lo)) lo body s.

Definition for_ {S : Type} (n : Z) (body : Z → S → S) (s : S) : S :=
  for_range 0 n body s.

(** ** Buffers behind raw pointers *)

Definition rd {A : Type} (dflt : A) (b : list A) (i : Z) : A :=
  if bool_decide (0 ≤ i) then default dflt (b !! Z.to_nat i) else dflt.

Definition wr {A : Type} (b : list A) (i : Z) (v : A) : list A :=
  if bool_decide (0 ≤ i) then <[Z.to_nat i := v]> b else b.

(** [typedef float real] *)
Abbreviation real := Q (only parsing).

Definition rdq (b : list real) (i : Z) : real := rd 0%Q b i.
Definition rdz (b : list Z) (i : Z) : Z := rd 0 b i.

Definition uint8 (z : Z) : Z := z mod 256.

(** A cell of a [uint8_t] buffer holds its content modulo 256. *)
Definition rdb (b : list Z) (i : Z) : Z := uint8 (rdz b i).

(** [memcpy(dst + d0, src + s0, n * sizeof(real))], the two regions
    disjoint. *)
Definition memcpy (dst : list real) (d0 : Z) (src : list real) (s0 : Z) (n : Z) : list real :=
  for_ n (fun j b => wr b (d0 + j) (rdq src (s0 + j))) dst.

(** [memset(dst + d0, 0, n * sizeof(real))]. *)
Definition memset0 (dst : list real) (d0 : Z) (n : Z) : list real :=
  for_ n (fun j b => wr b (d0 + j) 0%Q) dst.

(** ** Sums, as the specification writes them *)

Definition sumZ (l : list Z) : Z := foldr Z.add 0 l.

Definition zsum (n : Z) (f : Z → Z) : Z := for_ n (fun i acc => acc + f i) 0.

Definition qsum (n : Z) (f : Z → Q) : Q := for_ n (fun i acc => (acc + f i)%Q) 0%Q.

(** ** Outcomes of fallible code *)

Inductive error : Type :=
  | InvalidArgument   (* [std::invalid_argument], thrown by [train] *)
  | LengthError       (* [std::length_error], thrown by [std::vector::resize] *)
  | DivisionByZero.   (* a division whose divisor is zero *)

Inductive outcome (A : Type) : Type :=
  | Done (a : A)
  | Throw (e : error)
  | OutOfFuel.
Arguments Done {A} a.
Arguments Throw {A} e.
Arguments OutOfFuel {A}.

#[global] Instance outcome_ret : MRet outcome := fun A a => Done a.
#[global] Instance outcome_bind : MBind outcome := fun A B f m =>
  match m with
  | Done a => f a
  | Throw e => Throw e
  | OutOfFuel => OutOfFuel
  end.

(** A counted loop whose body may fail: the first failure ends it. *)
Definition for_M {S : Type} (n : Z) (body : Z → S → outcome S) (s : S) : outcome S :=
  for_ n (fun i r => s ← r; body i s) (Done s).

Definition Qltb (x y : Q) : bool := negb (Qle_bool y x).

(** A division of reals, failing on a zero divisor. *)
Definition real_div (a z : real) : outcome real :=
  if Qeq_bool z 0 then Throw DivisionByZero else Done (a / z)%Q.

(** ** Byte streams *)

(** The object representation of an [int32_t]: four bytes, least
    significant first. *)
Definition int32_bytes (v : Z) : list Z :=
  [v mod 256; (v / 2 ^ 8) mod 256; (v / 2 ^ 16) mod 256; (v / 2 ^ 24) mod 256].

Definition wrap32 (z : Z) : Z := (z + 2 ^ 31) mod 2 ^ 32 - 2 ^ 31.

Definition bytes_int32 (bs : list Z) : Z :=
  wrap32 (rdz bs 0 + 2 ^ 8 * rdz bs 1 + 2 ^ 16 * rdz bs 2 + 2 ^ 24 * rdz bs 3).

Definition int32_range (v : Z) : Prop := - 2 ^ 31 ≤ v < 2 ^ 31.

(** The object representation of a [real], left to the platform. *)
Class RealRepr := {
  sizeof_real : nat;
  real_bytes : real → list Z;
  bytes_real : list Z → real
}.

(** A [std::istream]: the bytes not yet consumed and the fail bit. *)
Record istream := {
  in_bytes : list Z;
  in_fail : bool
}.

(** [in.read(dst, n)] where [old] are the [n] bytes now at [dst]: a
    failed stream reads nothing; a short stream delivers what it has,
    leaves the rest of the destination alone and sets the fail bit. *)
Definition stream_read (s : istream) (old : list Z) : list Z * istream :=
  if in_fail s then (old, s)
  else if bool_decide (length old ≤ length (in_bytes s))%nat
  then (take (length old) (in_bytes s),
        {| in_bytes := drop (length old) (in_bytes s); in_fail := false |})
  else (in_bytes s ++ drop (length (in_bytes s)) old,
        {| in_bytes := []; in_fail := true |}).

(** The bytes at a destination after a read at offset [off] of a
    stream that held [bs], [old] being the bytes the destination held:
    the bytes the stream has there, then the old ones. *)
Definition read_over (bs : list Z) (off : nat) (old : list Z) : list Z :=
  take (length old) (drop off bs) ++ drop (length (drop off bs)) old.

(** The state of a stream that held [bs] once reads have asked for its
    first [off] bytes. *)
Definition stream_at (bs : list Z) (off : nat) (s : istream) : Prop :=
  if in_fail s then (length bs < off)%nat
  else in_bytes s = drop off bs ∧ (off ≤ length bs)%nat.

Definition read_int32 (s : istream) (old : Z) : Z * istream :=
  let '(bs, s) := stream_read s (int32_bytes old) in (bytes_int32 bs, s).

Definition read_real `{RealRepr} (s : istream) (old : real) : real * istream :=
  let '(bs, s) := stream_read s (real_bytes old) in (bytes_real bs, s).

(** [std::vector<real>::resize(n)], [n] converted from [int] to
    [size_t]: a negative [n] becomes a size beyond [max_size()]. *)
Definition resize (v : list real) (n : Z) : outcome (list real) :=
  if n <? 0 then Throw LengthError
  else Done (take (Z.to_nat n) v ++ replicate (Z.to_nat n - length v) 0%Q).

(** ** Constants of the class *)

(** Modelled from the spec: the header that declares [ksub_] is not part
    of the sources; the specification fixes [centroids_per_subspace] at
    256, the number of values of a one-byte code. *)
Definition ksub_ : Z := 256.

(** The remaining constants of the header (their values are not in the
    sources): EM iteration count, split perturbation, sampling cap and
    seed. *)
Class Consts := {
  niter_ : Z;
  eps_ : real;
  max_points_ : Z;
  seed_ : Z
}.

(** The random engine [rng] with the two ways the code consumes it: a
    draw of [std::uniform_real_distribution<>(0, 1)] and a
    [std::shuffle] of the index permutation. *)
Class Rng (G : Type) := {
  rng_seed : Z → G;
  runiform : G → Q * G;
  shuffle : list Z → G → list Z * G
}.

Class RngLaws (G : Type) `{Rng G} := {
  runiform_range : ∀ g : G, (0 <= (runiform g).1)%Q ∧ ((runiform g).1 < 1)%Q
}.

(** ** The quantizer *)

Record ProductQuantizer (G : Type) := {
  dim_ : Z;
  nsubq_ : Z;
  dsub_ : Z;
  lastdsub_ : Z;
  centroids_ : list real;
  rng : G
}.
Arguments dim_ {G} _.
Arguments nsubq_ {G} _.
Arguments dsub_ {G} _.
Arguments lastdsub_ {G} _.
Arguments centroids_ {G} _.
Arguments rng {G} _.

Section Model.
Context {G : Type} `{Rng G} `{Consts}.

(** [ProductQuantizer::ProductQuantizer(int32_t dim, int32_t dsub)] *)
Definition ProductQuantizer_ctor (dim dsub : Z) : ProductQuantizer G :=
  let nsubq := Z.quot dim dsub in
  let lastdsub := Z.rem dim dsub in
  if lastdsub =? 0
  then {| dim_ := dim; nsubq_ := nsubq; dsub_ := dsub; lastdsub_ := dsub;
          centroids_ := replicate (Z.to_nat (dim * ksub_)) 0%Q;
          rng := rng_seed seed_ |}
  else {| dim_ := dim; nsubq_ := nsubq + 1; dsub_ := dsub; lastdsub_ := lastdsub;
          centroids_ := replicate (Z.to_nat (dim * ksub_)) 0%Q;
          rng := rng_seed seed_ |}.

(** [const real* get_centroids(int32_t m, uint8_t i) const], as the
    offset of the returned pointer into [centroids_]. *)
Definition get_centroids_const (pq : ProductQuantizer G) (m i : Z) : Z :=
  if m =? nsubq_ pq - 1
  then m * ksub_ * dsub_ pq + i * lastdsub_ pq
  else (m * ksub_ + i) * dsub_ pq.

(** [real* get_centroids(int32_t m, uint8_t i)] *)
Definition get_centroids (pq : ProductQuantizer G) (m i : Z) : Z :=
  if m =? nsubq_ pq - 1
  then m * ksub_ * dsub_ pq + i * lastdsub_ pq
  else (m * ksub_ + i) * dsub_ pq.

(** Width of subspace [m]: the value of the local [d] of [train],
    [mulcode], [addcode] and [compute_code] in iteration [m]. *)
Definition width (pq : ProductQuantizer G) (m : Z) : Z :=
  if m =? nsubq_ pq - 1 then lastdsub_ pq else dsub_ pq.

(** [real distL2(const real* x, const real* y, int32_t d)] *)
Definition distL2 (x : list real) (xo : Z) (y : list real) (yo : Z) (d : Z) : real :=
  for_ d (fun i dist =>
    let tmp := (rdq x (xo + i) - rdq y (yo + i))%Q in
    (dist + tmp * tmp)%Q) 0%Q.

(** [real assign_centroid(const real* x, const real* c0, uint8_t* code,
    int32_t d) const]: the returned distance and the code buffer. *)
Definition assign_centroid (x : list real) (xo : Z) (cb : list real) (c0 : Z)
    (code : list Z) (co : Z) (d : Z) : real * list Z :=
  let dis := distL2 x xo cb c0 d in
  let code := wr code co 0 in
  let '(_, dis, code) :=
    for_range 1 ksub_ (fun j '(c, dis, code) =>
      let c := c + d in
      let disij := distL2 x xo cb c d in
      if Qltb disij dis then (c, disij, wr code co (uint8 j)) else (c, dis, code))
      (c0, dis, code) in
  (dis, code).

(** [void Estep(const real* x, const real* centroids, uint8_t* codes,
    int32_t d, int32_t n) const] *)
Definition Estep (x : list real) (xo : Z) (centroids : list real) (c0 : Z)
    (codes : list Z) (co : Z) (d n : Z) : list Z :=
  for_ n (fun i codes =>
    (assign_centroid x (xo + i * d) centroids c0 codes (co + i) d).2) codes.

(** *** [MStep], loop by loop *)

(** Lines 92-103: the counts, the cleared block and the coordinate sums. *)
Definition MStep_sums (x0 : list real) (xo : Z) (centroids : list real) (c0 : Z)
    (codes : list Z) (co : Z) (d n : Z) : list real * list Z :=
  let nelts := replicate (Z.to_nat ksub_) 0 in
  let centroids := memset0 centroids c0 (d * ksub_) in
  let '(_, centroids, nelts) :=
    for_ n (fun i '(x, centroids, nelts) =>
      let k := rdb codes (co + i) in
      let c := c0 + k * d in
      let centroids :=
        for_ d (fun j cen => wr cen (c + j) (rdq cen (c + j) + rdq x0 (x + j))%Q)
          centroids in
      (x + d, centroids, wr nelts k (rdz nelts k + 1)))
      (xo, centroids, nelts) in
  (centroids, nelts).

(** Lines 105-114: sums to means. *)
Definition MStep_means (centroids : list real) (c0 : Z) (nelts : list Z) (d : Z)
    : outcome (list real) :=
  '(_, centroids) ← for_M ksub_ (fun k '(c, centroids) =>
      let z := inject_Z (rdz nelts k) in
      centroids ←
        (if negb (Qeq_bool z 0)
         then for_M d (fun j cen =>
                q ← real_div (rdq cen (c + j)) z;
                mret (wr cen (c + j) q)) centroids
         else mret centroids);
      mret (c + d, centroids)) (c0, centroids);
  mret centroids.

(** Lines 119-122: the donor search, one draw per test of the loop
    condition. *)
Fixpoint donor (fuel : nat) (n : Z) (nelts : list Z) (m : Z) (g : G) : outcome (Z * G) :=
  match fuel with
  | O => OutOfFuel
  | Datatypes.S f =>
      let '(r, g) := runiform g in
      if Qle_bool (inject_Z (rdz nelts m - 1)) (r * inject_Z (n - ksub_))
      then donor f n nelts (Z.rem (m + 1) ksub_) g
      else Done (m, g)
  end.

(** Lines 123-128: the donor's centroid copied into slot [k], then both
    perturbed. *)
Definition split_centroid (centroids : list real) (c0 k m d : Z) : list real :=
  let centroids := memcpy centroids (c0 + k * d) centroids (c0 + m * d) d in
  for_ d (fun j cen =>
    let sign := Z.rem j 2 * 2 - 1 in
    let cen := wr cen (c0 + k * d + j) (rdq cen (c0 + k * d + j) + inject_Z sign * eps_)%Q in
    wr cen (c0 + m * d + j) (rdq cen (c0 + m * d + j) - inject_Z sign * eps_)%Q)
    centroids.

(** Lines 118-131: the body of the reseed loop, for cluster [k]. *)
Definition reseed_body (fuel : nat) (c0 d n : Z) (k : Z) (s : list real * list Z * G)
    : outcome (list real * list Z * G) :=
  let '(centroids, nelts, g) := s in
  if rdz nelts k =? 0 then
    '(m, g) ← donor fuel n nelts 0 g;
    let centroids := split_centroid centroids c0 k m d in
    let nelts := wr nelts k (Z.quot (rdz nelts m) 2) in
    let nelts := wr nelts m (rdz nelts m - rdz nelts k) in
    mret (centroids, nelts, g)
  else mret (centroids, nelts, g).

(** Lines 116-132: the reseed pass, up to cluster [kmax]. *)
Definition reseed_pass (kmax : Z) (fuel : nat) (centroids : list real) (c0 : Z)
    (nelts : list Z) (d n : Z) (g : G) : outcome (list real * list Z * G) :=
  for_M kmax (reseed_body fuel c0 d n) (centroids, nelts, g).

Definition MStep_reseed (fuel : nat) (centroids : list real) (c0 : Z) (nelts : list Z)
    (d n : Z) (g : G) : outcome (list real * list Z * G) :=
  reseed_pass ksub_ fuel centroids c0 nelts d n g.

(** [MStep] with its local [nelts] made visible. *)
Definition MStep_counts (fuel : nat) (x0 : list real) (xo : Z) (centroids : list real)
    (c0 : Z) (codes : list Z) (co : Z) (d n : Z) (g : G)
    : outcome (list real * list Z * G) :=
  let '(centroids, nelts) := MStep_sums x0 xo centroids c0 codes co d n in
  centroids ← MStep_means centroids c0 nelts d;
  MStep_reseed fuel centroids c0 nelts d n g.

(** [void MStep(const real* x0, real* centroids, const uint8_t* codes,
    int32_t d, int32_t n)] *)
Definition MStep (fuel : nat) (x0 : list real) (xo : Z) (centroids : list real)
    (c0 : Z) (codes : list Z) (co : Z) (d n : Z) (g : G) : outcome (list real * G) :=
  '(centroids, _, g) ← MStep_counts fuel x0 xo centroids c0 codes co d n g;
  mret (centroids, g).

(** [void kmeans(const real* x, real* c, int32_t n, int32_t d)] *)
Definition kmeans (fuel : nat) (x : list real) (xo : Z) (c : list real) (c0 : Z)
    (n d : Z) (g : G) : outcome (list real * G) :=
  let perm := seqZ 0 n in
  let '(perm, g) := shuffle perm g in
  let c := for_ ksub_ (fun i c => memcpy c (c0 + i * d) x (xo + rdz perm i * d) d) c in
  let codes := replicate (Z.to_nat n) 0 in
  '(c, _, g) ← for_M niter_ (fun _ '(c, codes, g) =>
      let codes := Estep x xo c c0 codes 0 d n in
      '(c, g) ← MStep fuel x xo c c0 codes 0 d n g;
      mret (c, codes, g)) (c, codes, g);
  mret (c, g).

(** The state of [train] between two subspaces. *)
Record train_state := {
  ts_d : Z;
  ts_perm : list Z;
  ts_xslice : list real;
  ts_centroids : list real;
  ts_rng : G
}.

(** [void train(int32_t n, const real* x)]: the result of the call and
    the quantizer it leaves. *)
Definition train (fuel : nat) (n : Z) (x : list real) (xo : Z) (pq : ProductQuantizer G)
    : outcome unit * ProductQuantizer G :=
  if n <? ksub_ then (Throw InvalidArgument, pq) else
  let perm := seqZ 0 n in
  let d := dsub_ pq in
  let np := Z.min n max_points_ in
  let xslice := replicate (Z.to_nat (np * dsub_ pq)) 0%Q in
  let r := for_M (nsubq_ pq) (fun m st =>
      let d := if m =? nsubq_ pq - 1 then lastdsub_ pq else ts_d st in
      let '(perm, g) :=
        if negb (np =? n) then shuffle (ts_perm st) (ts_rng st)
        else (ts_perm st, ts_rng st) in
      let xslice := for_ np (fun j xs =>
          memcpy xs (j * d) x (xo + rdz perm j * dim_ pq + m * dsub_ pq) d)
          (ts_xslice st) in
      '(centroids, g) ← kmeans fuel xslice 0 (ts_centroids st) (get_centroids pq m 0) np d g;
      mret {| ts_d := d; ts_perm := perm; ts_xslice := xslice;
              ts_centroids := centroids; ts_rng := g |})
      {| ts_d := d; ts_perm := perm; ts_xslice := xslice;
         ts_centroids := centroids_ pq; ts_rng := rng pq |} in
  match r with
  | Done st =>
      (Done (),
       {| dim_ := dim_ pq; nsubq_ := nsubq_ pq; dsub_ := dsub_ pq;
          lastdsub_ := lastdsub_ pq; centroids_ := ts_centroids st; rng := ts_rng st |})
  | Throw e => (Throw e, pq)
  | OutOfFuel => (OutOfFuel, pq)
  end.

(** [real mulcode(const Vector& x, const uint8_t* codes, int32_t t,
    real alpha) const] *)
Definition mulcode (pq : ProductQuantizer G) (x : list real) (codes : list Z) (co : Z)
    (t : Z) (alpha : real) : real :=
  let code := co + nsubq_ pq * t in
  let '(res, _) :=
    for_ (nsubq_ pq) (fun m '(res, d) =>
      let c := get_centroids_const pq m (rdb codes (code + m)) in
      let d := if m =? nsubq_ pq - 1 then lastdsub_ pq else d in
      (for_ d (fun n res =>
         (res + rdq x (m * dsub_ pq + n) * rdq (centroids_ pq) (c + n))%Q) res, d))
      (0%Q, dsub_ pq) in
  (res * alpha)%Q.

(** [void addcode(Vector& x, const uint8_t* codes, int32_t t, real alpha)
    const] *)
Definition addcode (pq : ProductQuantizer G) (x : list real) (codes : list Z) (co : Z)
    (t : Z) (alpha : real) : list real :=
  let code := co + nsubq_ pq * t in
  (for_ (nsubq_ pq) (fun m '(x, d) =>
     let c := get_centroids_const pq m (rdb codes (code + m)) in
     let d := if m =? nsubq_ pq - 1 then lastdsub_ pq else d in
     (for_ d (fun n x =>
        wr x (m * dsub_ pq + n)
          (rdq x (m * dsub_ pq + n) + alpha * rdq (centroids_ pq) (c + n))%Q) x, d))
     (x, dsub_ pq)).1.

(** [void compute_code(const real* x, uint8_t* code) const] *)
Definition compute_code (pq : ProductQuantizer G) (x : list real) (xo : Z)
    (code : list Z) (co : Z) : list Z :=
  (for_ (nsubq_ pq) (fun m '(d, code) =>
     let d := if m =? nsubq_ pq - 1 then lastdsub_ pq else d in
     (d, (assign_centroid x (xo + m * dsub_ pq) (centroids_ pq)
            (get_centroids_const pq m 0) code (co + m) d).2))
     (dsub_ pq, code)).2.

(** [void compute_codes(const real* x, uint8_t* codes, int32_t n) const] *)
Definition compute_codes (pq : ProductQuantizer G) (x : list real) (xo : Z)
    (codes : list Z) (co : Z) (n : Z) : list Z :=
  for_ n (fun i codes =>
    compute_code pq x (xo + i * dim_ pq) codes (co + i * nsubq_ pq)) codes.

(** [void save(std::ostream& out) const], the bytes appended to [out]. *)
Definition save `{RealRepr} (pq : ProductQuantizer G) (out : list Z) : list Z :=
  let out := out ++ int32_bytes (dim_ pq) in
  let out := out ++ int32_bytes (nsubq_ pq) in
  let out := out ++ int32_bytes (dsub_ pq) in
  let out := out ++ int32_bytes (lastdsub_ pq) in
  out ++ concat (real_bytes <$> centroids_ pq).

(** Lines 328-330: the loop of [load] over the table. *)
Definition load_table `{RealRepr} (centroids : list real) (s : istream)
    : list real * istream :=
  for_ (Z.of_nat (length centroids)) (fun i '(cen, s) =>
    let '(v, s) := read_real s (rdq cen i) in (wr cen i v, s)) (centroids, s).

(** [void load(std::istream& in)].  The operands of [dim_ * ksub_]
    come from the stream, so the product is the [int32_t] the machine
    leaves: the mathematical product reduced to 32 bits. *)
Definition load `{RealRepr} (pq : ProductQuantizer G) (s : istream)
    : outcome (ProductQuantizer G * istream) :=
  let '(dim, s) := read_int32 s (dim_ pq) in
  let '(nsubq, s) := read_int32 s (nsubq_ pq) in
  let '(dsub, s) := read_int32 s (dsub_ pq) in
  let '(lastdsub, s) := read_int32 s (lastdsub_ pq) in
  centroids ← resize (centroids_ pq) (wrap32 (dim * ksub_));
  let '(centroids, s) := load_table centroids s in
  mret ({| dim_ := dim; nsubq_ := nsubq; dsub_ := dsub; lastdsub_ := lastdsub;
           centroids_ := centroids; rng := rng pq |}, s).

(** *** Notions the verification is stated with *)


(** [b] is the first index among the [ksub_] candidates at which the
    distance [D] is least. *)
Definition first_nearest (D : Z → Q) (b : Z) : Prop :=
  0 ≤ b < ksub_ ∧
  (∀ i, 0 ≤ i < ksub_ → (D b <= D i)%Q) ∧
  (∀ i, 0 ≤ i < b → (D b < D i)%Q).

(** Distance from the slice at [x + xo] to the [i]-th of the centroids
    laid out from [c0] with stride [d]. *)
Definition cand_dist (x : list real) (xo : Z) (cb : list real) (c0 d : Z) (i : Z) : real :=
  distL2 x xo cb (c0 + i * d) d.

(** The index [assign_centroid] stores, as a function of what it reads. *)
Definition assign_index (x : list real) (xo : Z) (cb : list real) (c0 d : Z) : Z :=
  rdz (assign_centroid x xo cb c0 [0] 0 d).2 0.

(** The byte [compute_code] stores for subspace [m]. *)
Definition subspace_code (pq : ProductQuantizer G) (x : list real) (xo : Z) (m : Z) : Z :=
  assign_index x (xo + m * dsub_ pq) (centroids_ pq) (get_centroids_const pq m 0) (width pq m).

(** Squared distance from the [m]-th slice of the vector at [x + xo] to
    centroid [i] of subspace [m]. *)
Definition subspace_dist (pq : ProductQuantizer G) (x : list real) (xo : Z) (m i : Z) : real :=
  distL2 x (xo + m * dsub_ pq) (centroids_ pq) (get_centroids_const pq m i) (width pq m).

(** The specification's squared L2 distance of two vectors: the sum,
    over the coordinates, of the squared differences. *)
Definition squared_l2 (u v : list real) : real :=
  foldr Qplus 0%Q (zip_with (fun a b => (a - b) * (a - b))%Q u v).

(** The [d] reals of buffer [b] from offset [o] on. *)
Definition slice (b : list real) (o d : Z) : list real :=
  (fun k => rdq b (o + k)) <$> seqZ 0 d.

(** The specification's distance of subspace [m]: the squared L2
    distance of the [m]-th slice of the vector at [x + xo] and the
    block of centroid [i] of subspace [m] in the table. *)
Definition slice_squared_l2 (pq : ProductQuantizer G) (x : list real) (xo : Z) (m i : Z) : real :=
  squared_l2 (slice x (xo + m * dsub_ pq) (width pq m))
             (slice (centroids_ pq) (get_centroids_const pq m i) (width pq m)).

(** Dot product of the [m]-th slice of [x] with the centroid at offset
    [c] of the table. *)
Definition slice_dot (pq : ProductQuantizer G) (x : list real) (m c : Z) : real :=
  qsum (width pq m) (fun n => rdq x (m * dsub_ pq + n) * rdq (centroids_ pq) (c + n))%Q.

(** The specification's [approx_dot]: the scale times the sum over the
    subspaces of the slice products, the centroid of subspace [m] chosen
    by byte [m] of code [t]. *)
Definition approx_dot (pq : ProductQuantizer G) (x : list real) (codes : list Z) (co : Z)
    (t : Z) (alpha : real) : real :=
  (alpha * qsum (nsubq_ pq) (fun m =>
     slice_dot pq x m (get_centroids_const pq m (rdb codes (co + nsubq_ pq * t + m)))))%Q.

(** The engine after [i] draws, and the draw it then makes. *)
Fixpoint rng_after (i : nat) (g : G) : G :=
  match i with
  | O => g
  | Datatypes.S i' => rng_after i' (runiform g).2
  end.

Definition draw (g : G) (i : nat) : Q := (runiform (rng_after i g)).1.

(** Every coordinate of block [k] of the centroids laid out from [c0]
    with stride [d] is zero. *)
Definition block_zero (cen : list real) (c0 d k : Z) : Prop :=
  ∀ j, 0 ≤ j < d → rdq cen (c0 + k * d + j) = 0%Q.

(** The sign of the perturbation of coordinate [j]. *)
Definition split_sign (j : Z) : Z := Z.rem j 2 * 2 - 1.

(** What the reseed pass keeps true of its state before cluster [k]:
    the counts sum to [n], none is negative, those of the clusters
    already passed are positive, and the block of every later cluster
    that is still empty is still cleared. *)
Definition reseed_inv (c0 d n : Z) (k : Z) (s : list Q * list Z * G) : Prop :=
  Z.of_nat (length s.1.2) = ksub_ ∧
  sumZ s.1.2 = n ∧
  Forall (fun c => 0 ≤ c) s.1.2 ∧
  (∀ i, 0 ≤ i < k → 1 ≤ rdz s.1.2 i) ∧
  (∀ k0, k ≤ k0 < ksub_ → rdz s.1.2 k0 = 0 → block_zero s.1.1 c0 d k0).

(** A quantizer as the constructor, [train] and a successful [load] of
    saved bytes leave it: at least one subspace, the last one no wider
    than the others, the widths summing to [dim_], the table of
    [dim_ * ksub_] reals. *)
Definition well_shaped (pq : ProductQuantizer G) : Prop :=
  1 ≤ nsubq_ pq ∧ 0 < dsub_ pq ∧ 0 < lastdsub_ pq ≤ dsub_ pq ∧
  (nsubq_ pq - 1) * dsub_ pq + lastdsub_ pq = dim_ pq ∧
  Z.of_nat (length (centroids_ pq)) = dim_ pq * ksub_.

(** The number of the points [0 .. n) whose code is [k]. *)
Definition assigned_count (codes : list Z) (co n k : Z) : Z :=
  zsum n (fun i => if rdb codes (co + i) =? k then 1 else 0).

(** The sum of coordinate [j] over the points [0 .. n) whose code is
    [k]. *)
Definition assigned_sum (x0 : list real) (xo : Z) (codes : list Z) (co d n k j : Z) : real :=
  qsum n (fun i => if rdb codes (co + i) =? k then rdq x0 (xo + i * d + j) else 0%Q).

(** The dot product of the first [n] coordinates of two vectors. *)
Definition dot (n : Z) (x y : list real) : real :=
  qsum n (fun p => rdq x p * rdq y p)%Q.

(** The centroid coordinate that code [t] selects for coordinate [n] of
    subspace [m]. *)
Definition code_coord (pq : ProductQuantizer G) (codes : list Z) (co t m n : Z) : real :=
  rdq (centroids_ pq) (get_centroids_const pq m (rdb codes (co + nsubq_ pq * t + m)) + n).

(** [p] is no cell of the [ksub_] blocks of width [d] laid out from
    [c0]. *)
Definition outside_blocks (c0 d p : Z) : Prop := ¬ (c0 ≤ p < c0 + ksub_ * d).

End Model.

(** ** Concrete engines and constants, for running the model *)

(** A small linear congruential engine; a draw is the state's last
    three decimal digits over 1000, a shuffle reverses. *)
Definition lcg_next (g : Z) : Z := (48271 * g) mod 2147483647.

#[global] Instance lcg_rng : Rng Z := {|
  rng_seed := fun s => s;
  runiform := fun g => ((g mod 1000) # 1000, lcg_next g);
  shuffle := fun l g => (reverse l, lcg_next g)
|}.

(** An engine whose every draw is one half. *)
#[global] Instance half_rng : Rng unit := {|
  rng_seed := fun _ => ();
  runiform := fun g => (1 # 2, g);
  shuffle := fun l g => (l, g)
|}.

Definition test_consts : Consts := {|
  niter_ := 2;
  eps_ := 1 # 10000000;
  max_points_ := 65536;
  seed_ := 1234
|}.

(** A one-byte representation of the reals 0..255, for running
    [save] and [load]. *)
Definition byte_repr : RealRepr := {|
  sizeof_real := 1;
  real_bytes := fun q => [Qfloor q mod 256];
  bytes_real := fun bs => inject_Z (rdz bs 0)
|}.

(** A quantizer of dimension 3 in subspaces of width 2 (the last one of
    width 1) whose [p]-th table entry is [p mod 7]. *)
Definition test_pq : ProductQuantizer Z := {|
  dim_ := 3; nsubq_ := 2; dsub_ := 2; lastdsub_ := 1;
  centroids_ := (fun p => inject_Z (p mod 7)) <$> seqZ 0 768;
  rng := 1234
|}.


(** * Verification *)

(** Closes a goal about outcomes once the scrutinee is a constructor. *)
Ltac outcome_done :=
  intros; simpl in *; unfold mret, outcome_ret in *; (done || congruence || eauto).

(** ** Loops *)

Lemma iter_up_ind {S : Type} (P : Z → S → Prop) (lo : Z) (body : Z → S → S) (s : S) (cnt : nat) :
  P lo s →
  (∀ i s, lo ≤ i < lo + Z.of_nat cnt → P i s → P (i + 1) (body i s)) →
  P (lo + Z.of_nat cnt) (iter_up cnt lo body s).
Proof.
  induction cnt as [|c IH]; intros H0 Hstep.
  - simpl. by rewrite Z.add_0_r.
  - simpl. replace (lo + Z.of_nat (Datatypes.S c)) with (lo + Z.of_nat c + 1) by lia.
    apply Hstep; [lia|]. apply IH; [done|].
    intros i s' Hi. apply Hstep. lia.
Qed.

Lemma for_range_ind {S : Type} (P : Z → S → Prop) (lo hi : Z) (body : Z → S → S) (s : S) :
  lo ≤ hi →
  P lo s →
  (∀ i s, lo ≤ i < hi → P i s → P (i + 1) (body i s)) →
  P hi (for_range lo hi body s).
Proof.
  intros Hle H0 Hstep. unfold for_range.
  replace hi with (lo + Z.of_nat (Z.to_nat (hi - lo))) at 1 by lia.
  apply iter_up_ind; [done|]. intros i s' Hi. apply Hstep. lia.
Qed.

Lemma for_ind {S : Type} (P : Z → S → Prop) (n : Z) (body : Z → S → S) (s : S) :
  0 ≤ n →
  P 0 s →
  (∀ i s, 0 ≤ i < n → P i s → P (i + 1) (body i s)) →
  P n (for_ n body s).
Proof. apply for_range_ind. Qed.

(** An invariant that does not mention the counter needs no bound. *)
Lemma for_inv {S : Type} (P : S → Prop) (n : Z) (body : Z → S → S) (s : S) :
  P s →
  (∀ i s, 0 ≤ i < n → P s → P (body i s)) →
  P (for_ n body s).
Proof.
  intros H0 Hstep. destruct (decide (0 ≤ n)) as [Hn|Hn].
  - by apply (for_ind (fun _ => P)).
  - unfold for_, for_range. by replace (Z.to_nat (n - 0)) with O by lia.
Qed.

Lemma for_neg {S : Type} (n : Z) (body : Z → S → S) (s : S) :
  n ≤ 0 → for_ n body s = s.
Proof. intros Hn. unfold for_, for_range. by replace (Z.to_nat (n - 0)) with O by lia. Qed.

Lemma for_succ {S : Type} (n : Z) (body : Z → S → S) (s : S) :
  0 ≤ n → for_ (n + 1) body s = body n (for_ n body s).
Proof.
  intros Hn. unfold for_, for_range.
  replace (Z.to_nat (n + 1 - 0)) with (Datatypes.S (Z.to_nat n)) by lia.
  simpl. rewrite Z.sub_0_r. f_equal. lia.
Qed.

(** A loop of fallible steps that all succeed, succeeds. *)
Lemma for_M_total {S : Type} (P : Z → S → Prop) (n : Z) (body : Z → S → outcome S) (s : S) :
  0 ≤ n →
  P 0 s →
  (∀ i s, 0 ≤ i < n → P i s → ∃ s', body i s = Done s' ∧ P (i + 1) s') →
  ∃ s', for_M n body s = Done s' ∧ P n s'.
Proof.
  intros Hn H0 Hstep. unfold for_M.
  apply (for_ind (fun i r => ∃ s', r = Done s' ∧ P i s')); [done|by eauto|].
  intros i r Hi (s' & -> & Hs'). simpl. by apply Hstep.
Qed.

(** What holds of the result of a loop of fallible steps, if it has one. *)
Lemma for_M_partial {S : Type} (P : Z → S → Prop) (n : Z) (body : Z → S → outcome S) (s s' : S) :
  0 ≤ n →
  P 0 s →
  (∀ i s s', 0 ≤ i < n → P i s → body i s = Done s' → P (i + 1) s') →
  for_M n body s = Done s' → P n s'.
Proof.
  intros Hn H0 Hstep. unfold for_M. revert s'.
  apply (for_ind (fun i r => ∀ s', r = Done s' → P i s')); [done|by intros; simplify_eq|].
  intros i [s1| |] Hi Hr s' Hb; simpl in Hb; try done.
  eapply Hstep; [done| |done]. by apply Hr.
Qed.

Lemma bind_Done {A B : Type} (f : A → outcome B) (a : A) : (Done a ≫= f) = f a.
Proof. reflexivity. Qed.

Lemma for_M_neg {S : Type} (n : Z) (body : Z → S → outcome S) (s : S) :
  n ≤ 0 → for_M n body s = Done s.
Proof. intros Hn. unfold for_M. by rewrite for_neg. Qed.

Lemma for_M_succ {S : Type} (n : Z) (body : Z → S → outcome S) (s : S) :
  0 ≤ n → for_M (n + 1) body s = (for_M n body s ≫= body n).
Proof. intros Hn. unfold for_M. by rewrite for_succ. Qed.

(** ** Buffers *)

Lemma length_wr {A : Type} (b : list A) (i : Z) (v : A) : length (wr b i v) = length b.
Proof. unfold wr. case_bool_decide; [apply length_insert|done]. Qed.

Lemma rd_wr_eq {A : Type} (dflt : A) (b : list A) (i : Z) (v : A) :
  0 ≤ i < Z.of_nat (length b) → rd dflt (wr b i v) i = v.
Proof.
  intros Hi. unfold rd, wr. rewrite !bool_decide_eq_true_2 by lia.
  rewrite list_lookup_insert_eq; [done|lia].
Qed.

Lemma rd_wr_ne {A : Type} (dflt : A) (b : list A) (i j : Z) (v : A) :
  i ≠ j → rd dflt (wr b i v) j = rd dflt b j.
Proof.
  intros Hij. unfold rd, wr. repeat case_bool_decide; try done.
  rewrite list_lookup_insert_ne; [done|lia].
Qed.

Lemma rd_lookup {A : Type} (dflt : A) (b : list A) (i : Z) (v : A) :
  0 ≤ i → b !! Z.to_nat i = Some v → rd dflt b i = v.
Proof. intros Hi Hv. unfold rd. rewrite bool_decide_eq_true_2 by done. by rewrite Hv. Qed.

Lemma rd_replicate {A : Type} (dflt : A) (n : nat) (i : Z) : rd dflt (replicate n dflt) i = dflt.
Proof.
  unfold rd. case_bool_decide; [|done].
  destruct (replicate n dflt !! Z.to_nat i) as [v|] eqn:E; [|done].
  apply lookup_replicate in E. simpl. by destruct E.
Qed.

(** ** Shape of a constructed quantizer and addressing (C1) *)

Section Shape.
Context {G : Type} `{Rng G} `{Consts}.



Lemma zsum_succ (n : Z) (f : Z → Z) : 0 ≤ n → zsum (n + 1) f = zsum n f + f n.
Proof. intros Hn. unfold zsum. by rewrite for_succ. Qed.

(** The accessors agree on every argument. *)
Lemma get_centroids_same (pq : ProductQuantizer G) (m i : Z) :
  get_centroids_const pq m i = get_centroids pq m i.
Proof. reflexivity. Qed.

(** Consecutive centroids of one subspace are [width] apart. *)
Lemma get_centroids_stride (pq : ProductQuantizer G) (m i : Z) :
  get_centroids_const pq m i = get_centroids_const pq m 0 + i * width pq m.
Proof. unfold get_centroids_const, width. destruct (m =? nsubq_ pq - 1); lia. Qed.

(** Addressing on a well-shaped quantizer: cells stay inside the table,
    distinct cells are distinct places, and every place is a cell. *)
Section Tiling.
Variable pq : ProductQuantizer G.
Hypothesis Hq : 1 ≤ nsubq_ pq.
Hypothesis Hw : 0 < dsub_ pq.
Hypothesis Hl : 0 < lastdsub_ pq ≤ dsub_ pq.





End Tiling.


End Shape.


(** ** Nearest-centroid assignment (C2) *)

Lemma wr_wr {A : Type} (b : list A) (i : Z) (v w : A) : wr (wr b i v) i w = wr b i w.
Proof. unfold wr. case_bool_decide; [apply list_insert_insert_eq|done]. Qed.

Lemma Qltb_lt (x y : Q) : Qltb x y = true ↔ (x < y)%Q.
Proof.
  unfold Qltb. rewrite negb_true_iff. split.
  - intros E. apply Qnot_le_lt. intros Hle. apply Qle_bool_iff in Hle. congruence.
  - intros Hlt. destruct (Qle_bool y x) eqn:E; [|done].
    apply Qle_bool_iff in E. exfalso. by apply (Qlt_not_le x y).
Qed.

Lemma Qltb_ge (x y : Q) : Qltb x y = false ↔ (y <= x)%Q.
Proof.
  unfold Qltb. rewrite negb_false_iff. apply Qle_bool_iff.
Qed.

Lemma uint8_small (j : Z) : 0 ≤ j < 256 → uint8 j = j.
Proof. intros Hj. unfold uint8. by apply Z.mod_small. Qed.

Lemma first_nearest_unique (D : Z → Q) (b b' : Z) :
  first_nearest D b → first_nearest D b' → b = b'.
Proof.
  intros (Hb & Hmin & Hfirst) (Hb' & Hmin' & Hfirst').
  destruct (Z.lt_trichotomy b b') as [Hlt|[Heq|Hgt]]; [|done|].
  - exfalso. specialize (Hfirst' b ltac:(lia)). specialize (Hmin b' Hb'). lra.
  - exfalso. specialize (Hfirst b' ltac:(lia)). specialize (Hmin' b Hb). lra.
Qed.

Lemma first_nearest_ext (D D' : Z → Q) (b : Z) :
  (∀ i, (D i == D' i)%Q) → first_nearest D b → first_nearest D' b.
Proof.
  intros HD (Hb & Hmin & Hfirst). split; [done|]. split.
  - intros i Hi. rewrite <- !HD. by apply Hmin.
  - intros i Hi. rewrite <- !HD. by apply Hfirst.
Qed.

(** *** The loop of [distL2] and the sum of squared differences *)

Lemma squared_l2_snoc (u v : list real) (a b : real) :
  length u = length v →
  (squared_l2 (u ++ [a]) (v ++ [b]) == squared_l2 u v + (a - b) * (a - b))%Q.
Proof.
  revert v. induction u as [|c u IH]; intros [|e v] Hl; simpl in Hl; try lia.
  - unfold squared_l2. simpl. ring.
  - unfold squared_l2 in *. simpl. rewrite IH by lia. ring.
Qed.

Lemma length_slice (b : list real) (o d : Z) : length (slice b o d) = Z.to_nat d.
Proof. unfold slice. by rewrite length_fmap, length_seqZ. Qed.

Lemma slice_succ (b : list real) (o d : Z) :
  0 ≤ d → slice b o (d + 1) = slice b o d ++ [rdq b (o + d)].
Proof.
  intros Hd. unfold slice. rewrite seqZ_app by lia. by rewrite fmap_app.
Qed.

(** In range, the slice is the sublist of the buffer. *)
Lemma slice_sublist (b : list real) (o d : Z) :
  0 ≤ o → 0 ≤ d → o + d ≤ Z.of_nat (length b) →
  slice b o d = take (Z.to_nat d) (drop (Z.to_nat o) b).
Proof.
  intros Ho Hd Hlen. apply list_eq. intros k.
  unfold slice. rewrite list_lookup_fmap.
  destruct (decide (Z.of_nat k < d)) as [Hk|Hk].
  - rewrite lookup_seqZ_lt by done. simpl.
    rewrite lookup_take_lt by lia. rewrite lookup_drop.
    unfold rdq, rd. rewrite bool_decide_eq_true_2 by lia.
    replace (Z.to_nat (o + (0 + Z.of_nat k))) with (Z.to_nat o + k)%nat by lia.
    destruct (b !! (Z.to_nat o + k)%nat) as [q|] eqn:E; [done|].
    apply lookup_ge_None in E. lia.
  - rewrite lookup_seqZ_ge by lia. simpl.
    symmetry. apply lookup_ge_None. rewrite length_take. lia.
Qed.

(** [distL2] returns the sum of the squared differences of the [d]
    coordinates it reads. *)
Lemma distL2_squared_l2 (x : list real) (xo : Z) (y : list real) (yo d : Z) :
  (distL2 x xo y yo d == squared_l2 (slice x xo d) (slice y yo d))%Q.
Proof.
  destruct (decide (0 ≤ d)) as [Hd|Hd].
  - revert d Hd. apply natlike_ind.
    + unfold distL2. rewrite for_neg by lia. done.
    + intros d Hd IH. unfold Z.succ. unfold distL2 in *.
      rewrite for_succ by done. cbv zeta. rewrite IH.
      rewrite !slice_succ by done.
      rewrite squared_l2_snoc by (by rewrite !length_slice). done.
  - unfold distL2, slice. rewrite for_neg by lia. rewrite !seqZ_nil by lia. done.
Qed.

Section Assign.
Context {G : Type} `{Rng G} `{Consts}.

Lemma assign_centroid_spec (x : list real) (xo : Z) (cb : list real) (c0 : Z)
    (code : list Z) (co : Z) (d : Z) :
  ∃ b, first_nearest (cand_dist x xo cb c0 d) b ∧
       assign_centroid x xo cb c0 code co d = (cand_dist x xo cb c0 d b, wr code co b).
Proof.
  unfold assign_centroid.
  set (D := cand_dist x xo cb c0 d).
  set (body := fun (j : Z) '(c, dis, code) => _).
  pose (P := fun (j : Z) (s : Z * real * list Z) =>
    let '(c, dis, code') := s in
    c = c0 + (j - 1) * d ∧
    ∃ b, 0 ≤ b < j ∧ dis = D b ∧ code' = wr code co b ∧
         (∀ i, 0 ≤ i < j → (D b <= D i)%Q) ∧ (∀ i, 0 ≤ i < b → (D b < D i)%Q)).
  assert (P ksub_ (for_range 1 ksub_ body (c0, distL2 x xo cb c0 d, wr code co 0))) as HP.
  { apply for_range_ind; [unfold ksub_; lia| |].
    - split; [lia|]. exists 0. repeat split; try lia.
      + unfold D, cand_dist. f_equal. lia.
      + intros i Hi. replace i with 0 by lia. apply Qle_refl.
    - intros j [[c dis] code'] Hj (Hc & b & Hb & Hdis & Hcode & Hmin & Hfirst).
      unfold body. subst c dis code'.
      replace (distL2 x xo cb (c0 + (j - 1) * d + d) d) with (D j)
        by (unfold D, cand_dist; f_equal; lia).
      destruct (Qltb (D j) (D b)) eqn:E.
      + apply Qltb_lt in E. split; [lia|]. exists j. repeat split; try lia.
        * rewrite wr_wr. f_equal. apply uint8_small. unfold ksub_ in Hj. lia.
        * intros i Hi. destruct (decide (i = j)) as [->|Hne]; [apply Qle_refl|].
          specialize (Hmin i ltac:(lia)). lra.
        * intros i Hi. specialize (Hmin i ltac:(lia)). lra.
      + apply Qltb_ge in E. split; [lia|]. exists b. repeat split; try lia; try done.
        intros i Hi. destruct (decide (i = j)) as [->|Hne]; [done|].
        apply Hmin. lia. }
  destruct (for_range 1 ksub_ body _) as [[c dis] code'].
  destruct HP as (_ & b & Hb & -> & -> & Hmin & Hfirst).
  exists b. repeat split; try done; lia.
Qed.

Lemma assign_index_spec (x : list real) (xo : Z) (cb : list real) (c0 d : Z) :
  first_nearest (cand_dist x xo cb c0 d) (assign_index x xo cb c0 d).
Proof.
  unfold assign_index.
  destruct (assign_centroid_spec x xo cb c0 [0] 0 d) as (b & Hb & ->).
  cbn [snd]. unfold rdz. by rewrite rd_wr_eq by (simpl; lia).
Qed.

Lemma assign_centroid_code (x : list real) (xo : Z) (cb : list real) (c0 : Z)
    (code : list Z) (co : Z) (d : Z) :
  (assign_centroid x xo cb c0 code co d).2 = wr code co (assign_index x xo cb c0 d).
Proof.
  destruct (assign_centroid_spec x xo cb c0 code co d) as (b & Hb & ->).
  simpl. f_equal. eapply first_nearest_unique; [done|apply assign_index_spec].
Qed.

Lemma subspace_code_spec (pq : ProductQuantizer G) (x : list real) (xo : Z) (m : Z) :
  first_nearest (subspace_dist pq x xo m) (subspace_code pq x xo m).
Proof.
  pose proof (assign_index_spec x (xo + m * dsub_ pq) (centroids_ pq)
                (get_centroids_const pq m 0) (width pq m)) as (Hb & Hmin & Hfirst).
  assert (∀ i, cand_dist x (xo + m * dsub_ pq) (centroids_ pq)
                 (get_centroids_const pq m 0) (width pq m) i = subspace_dist pq x xo m i) as E.
  { intros i. unfold cand_dist, subspace_dist. f_equal.
    by rewrite (get_centroids_stride pq m i). }
  unfold subspace_code. repeat split; try lia.
  - intros i Hi. rewrite <- !E. by apply Hmin.
  - intros i Hi. rewrite <- !E. by apply Hfirst.
Qed.

Lemma compute_code_writes (pq : ProductQuantizer G) (x : list real) (xo : Z)
    (code : list Z) (co : Z) :
  compute_code pq x xo code co =
  for_ (nsubq_ pq) (fun m c => wr c (co + m) (subspace_code pq x xo m)) code.
Proof.
  unfold compute_code.
  destruct (decide (0 ≤ nsubq_ pq)) as [Hn|Hn]; [|by rewrite !for_neg by lia].
  set (body := fun (m : Z) '(d, code) => _).
  pose (P := fun (m : Z) (s : Z * list Z) =>
    (m < nsubq_ pq → s.1 = dsub_ pq) ∧
    s.2 = for_ m (fun m c => wr c (co + m) (subspace_code pq x xo m)) code).
  assert (P (nsubq_ pq) (for_ (nsubq_ pq) body (dsub_ pq, code))) as [_ HP].
  { apply for_ind; [done|by split|].
    intros m [d c] Hm [Hd Hc]. simpl in Hd, Hc. unfold body. split; simpl.
    - intros Hlt. destruct (Z.eqb_spec m (nsubq_ pq - 1)); [lia|]. apply Hd. lia.
    - rewrite for_succ by lia. rewrite assign_centroid_code. subst c.
      f_equal. unfold subspace_code, width. rewrite Hd by lia.
      by destruct (m =? nsubq_ pq - 1). }
  exact HP.
Qed.

End Assign.

(** A loop that stores [v m] at [co + m] for [m] below [n]. *)
Lemma store_loop_length {A : Type} (n co : Z) (v : Z → A) (c : list A) :
  length (for_ n (fun m c => wr c (co + m) (v m)) c) = length c.
Proof.
  apply (for_inv (fun r => length r = length c)); [done|].
  intros i s _ Hs. by rewrite length_wr.
Qed.

Lemma store_loop_rd {A : Type} (dflt : A) (n co : Z) (v : Z → A) (c : list A) (p : Z) :
  0 ≤ n →
  rd dflt (for_ n (fun m c => wr c (co + m) (v m)) c) p =
  if bool_decide (co ≤ p < co + n ∧ 0 ≤ p < Z.of_nat (length c)) then v (p - co) else rd dflt c p.
Proof.
  intros Hn.
  pose (P := fun (i : Z) (r : list A) => length r = length c ∧ rd dflt r p =
    if bool_decide (co ≤ p < co + i ∧ 0 ≤ p < Z.of_nat (length c)) then v (p - co)
    else rd dflt c p).
  enough (P n (for_ n (fun m c => wr c (co + m) (v m)) c)) as [_ HP] by exact HP.
  apply for_ind; unfold P; [done| |].
  - split; [done|]. rewrite bool_decide_eq_false_2; [done|lia].
  - intros i s Hi [Hlen Hs]. split; [by rewrite length_wr|].
    destruct (decide (co + i = p)) as [<-|Hne].
    + destruct (decide (0 ≤ co + i < Z.of_nat (length c))) as [Hin|Hout].
      * rewrite rd_wr_eq by lia. rewrite bool_decide_eq_true_2 by lia. f_equal. lia.
      * rewrite bool_decide_eq_false_2 by lia.
        rewrite bool_decide_eq_false_2 in Hs by lia. rewrite <- Hs.
        unfold rd, wr. repeat case_bool_decide; try done.
        rewrite list_insert_ge; [done|lia].
    + rewrite rd_wr_ne by done. rewrite Hs.
      repeat case_bool_decide; try done; lia.
Qed.

Lemma list_eq_rd {A : Type} (dflt : A) (a b : list A) :
  length a = length b →
  (∀ i, 0 ≤ i < Z.of_nat (length a) → rd dflt a i = rd dflt b i) →
  a = b.
Proof.
  intros Hlen Hrd. apply (list_eq_same_length a b (length a)); [done..|].
  intros i x y Hi Hx Hy. specialize (Hrd (Z.of_nat i) ltac:(lia)).
  rewrite (rd_lookup dflt a (Z.of_nat i) x) in Hrd by (rewrite ?Nat2Z.id; done || lia).
  rewrite (rd_lookup dflt b (Z.of_nat i) y) in Hrd by (rewrite ?Nat2Z.id; done || lia).
  done.
Qed.

Section ComputeCode.
Context {G : Type} `{Rng G} `{Consts}.

Lemma compute_code_rd (pq : ProductQuantizer G) (x : list real) (xo : Z)
    (code : list Z) (co m : Z) :
  0 ≤ co → co + nsubq_ pq ≤ Z.of_nat (length code) → 0 ≤ m < nsubq_ pq →
  rdz (compute_code pq x xo code co) (co + m) = subspace_code pq x xo m.
Proof.
  intros Hco Hlen Hm. rewrite compute_code_writes. unfold rdz.
  rewrite store_loop_rd by lia. rewrite bool_decide_eq_true_2 by lia.
  f_equal. lia.
Qed.

(** The distance the code compares is the specification's: the sum of
    the squared coordinate differences of slice and centroid. *)
Lemma subspace_dist_squared_l2 (pq : ProductQuantizer G) (x : list real) (xo m i : Z) :
  (subspace_dist pq x xo m i == slice_squared_l2 pq x xo m i)%Q.
Proof. apply distL2_squared_l2. Qed.

Lemma subspace_code_nearest (pq : ProductQuantizer G) (x : list real) (xo m : Z) :
  first_nearest (slice_squared_l2 pq x xo m) (subspace_code pq x xo m).
Proof.
  eapply first_nearest_ext; [|apply subspace_code_spec].
  intros i. apply subspace_dist_squared_l2.
Qed.

(** C2.  For a fixed table and vector, [compute_code] stores for every
    subspace [m] the first index, among the [ksub_] candidates, at which
    the squared L2 distance (the sum over the coordinates of the squared
    differences) of the [m]-th slice of the vector and the centroid's
    block of the table is least: no candidate is nearer and every
    candidate of lower index is strictly farther.  That index is the
    only one with this property, so deriving it again gives the same
    code: a second call leaves the buffer as it is, and a call on any
    other buffer stores the same bytes.  The distance [distL2] returns
    for the slice and a centroid is that sum. *)
Theorem compute_code_first_nearest (pq : ProductQuantizer G) (x : list real) (xo : Z)
    (code : list Z) (co : Z) :
  0 ≤ co → co + nsubq_ pq ≤ Z.of_nat (length code) →
  let code' := compute_code pq x xo code co in
  (∀ m, 0 ≤ m < nsubq_ pq →
     first_nearest (slice_squared_l2 pq x xo m) (rdz code' (co + m)) ∧
     (∀ b, first_nearest (slice_squared_l2 pq x xo m) b → b = rdz code' (co + m)) ∧
     (∀ i, distL2 x (xo + m * dsub_ pq) (centroids_ pq) (get_centroids_const pq m i)
             (width pq m) == slice_squared_l2 pq x xo m i)%Q) ∧
  compute_code pq x xo code' co = code' ∧
  (∀ code2 : list Z, length code2 = length code →
     ∀ m, 0 ≤ m < nsubq_ pq →
       rdz (compute_code pq x xo code2 co) (co + m) = rdz code' (co + m)).
Proof.
  intros Hco Hlen code'. split; [|split].
  - intros m Hm. unfold code'. rewrite compute_code_rd by done. split; [|split].
    + apply subspace_code_nearest.
    + intros b Hb. eapply first_nearest_unique; [done|apply subspace_code_nearest].
    + intros i. apply subspace_dist_squared_l2.
  - assert (length code' = length code) as Hl.
    { unfold code'. rewrite compute_code_writes. apply store_loop_length. }
    apply (list_eq_rd 0).
    + rewrite compute_code_writes, store_loop_length. done.
    + intros i Hi. rewrite compute_code_writes.
      destruct (decide (0 ≤ nsubq_ pq)) as [Hn|Hn]; [|by rewrite for_neg by lia].
      rewrite store_loop_rd by done. case_bool_decide as Hc; [|done].
      replace i with (co + (i - co)) at 2 by lia.
      fold (rdz code' (co + (i - co))). unfold code'.
      rewrite compute_code_rd; [done..|lia].
  - intros code2 Hl2 m Hm. unfold code'.
    rewrite !compute_code_rd; [done..|lia|done].
Qed.

End ComputeCode.

Lemma compute_code_first_nearest_witness :
  0 ≤ 0 ∧ 0 + nsubq_ test_pq ≤ Z.of_nat (length [0; 0]) ∧
  compute_code test_pq [3%Q; 5%Q; 1%Q] 0 (compute_code test_pq [3%Q; 5%Q; 1%Q] 0 [0; 0] 0) 0
  = compute_code test_pq [3%Q; 5%Q; 1%Q] 0 [0; 0] 0.
Proof.
  split; [lia|]. split; [simpl; lia|].
  apply (compute_code_first_nearest test_pq [3%Q; 5%Q; 1%Q] 0 [0; 0] 0); simpl; lia.
Defined.

(** ** Dot product against a code (C9) *)

Lemma qsum_succ (n : Z) (f : Z → Q) : 0 ≤ n → qsum (n + 1) f = (qsum n f + f n)%Q.
Proof. intros Hn. unfold qsum. by rewrite for_succ. Qed.

(** A running accumulation from [a] adds the sum to [a]. *)
Lemma for_accumulate (n : Z) (f : Z → Q) (a : Q) :
  (for_ n (fun i acc => acc + f i) a == a + qsum n f)%Q.
Proof.
  destruct (decide (0 ≤ n)) as [Hn|Hn].
  - pose (P := fun (i : Z) (acc : Q) => (acc == a + qsum i f)%Q).
    enough (P n (for_ n (fun i acc => (acc + f i)%Q) a)) as HP by exact HP.
    apply for_ind; unfold P; [done| |].
    + unfold qsum. rewrite for_neg by lia. ring.
    + intros i acc Hi Hacc. rewrite qsum_succ by lia. rewrite Hacc. ring.
  - unfold qsum. rewrite !for_neg by lia. ring.
Qed.

Section Mulcode.
Context {G : Type} `{Rng G} `{Consts}.

(** C9.  [mulcode] returns [alpha] times the sum over the subspaces of
    the dot product of the slice of [x] at offset [m * dsub_], of the
    subspace's width, with the centroid chosen by byte [m] of code [t];
    its only state is the running sum and the width. *)
Theorem mulcode_approx_dot (pq : ProductQuantizer G) (x : list real) (codes : list Z)
    (co : Z) (t : Z) (alpha : real) :
  (mulcode pq x codes co t alpha == approx_dot pq x codes co t alpha)%Q.
Proof.
  unfold mulcode, approx_dot.
  set (f := fun m => slice_dot pq x m (get_centroids_const pq m (rdb codes (co + nsubq_ pq * t + m)))).
  set (body := fun (m : Z) '(res, d) => _).
  destruct (decide (0 ≤ nsubq_ pq)) as [Hn|Hn].
  - pose (P := fun (m : Z) (s : real * Z) =>
      (m < nsubq_ pq → s.2 = dsub_ pq) ∧ (s.1 == qsum m f)%Q).
    assert (P (nsubq_ pq) (for_ (nsubq_ pq) body (0%Q, dsub_ pq))) as [_ HP].
    { apply for_ind; [done|by split|].
      intros m [res d] Hm [Hd Hres]. simpl in Hd, Hres. unfold body. split; cbn [fst snd].
      - intros Hlt. destruct (Z.eqb_spec m (nsubq_ pq - 1)); [lia|]. apply Hd. lia.
      - rewrite for_accumulate, qsum_succ by lia. rewrite Hres.
        apply Qplus_comp; [reflexivity|]. unfold f, slice_dot, width.
        rewrite Hd by lia. by destruct (m =? nsubq_ pq - 1). }
    destruct (for_ (nsubq_ pq) body (0%Q, dsub_ pq)) as [res d]. simpl in HP.
    rewrite HP. ring.
  - rewrite for_neg by lia. unfold qsum. rewrite for_neg by lia. ring.
Qed.

End Mulcode.

(** ** Cluster counts *)

Lemma rd_out {A : Type} (dflt : A) (b : list A) (i : Z) :
  ¬ (0 ≤ i < Z.of_nat (length b)) → rd dflt b i = dflt.
Proof.
  intros Hi. unfold rd. case_bool_decide; [|done].
  rewrite lookup_ge_None_2; [done|lia].
Qed.

Lemma rd_in {A : Type} (dflt : A) (b : list A) (i : Z) :
  0 ≤ i < Z.of_nat (length b) → b !! Z.to_nat i = Some (rd dflt b i).
Proof.
  intros Hi. unfold rd. rewrite bool_decide_eq_true_2 by lia.
  destruct (lookup_lt_is_Some_2 b (Z.to_nat i) ltac:(lia)) as [v Hv]. by rewrite Hv.
Qed.

Lemma Forall_rd {A : Type} (P : A → Prop) (dflt : A) (b : list A) (i : Z) :
  Forall P b → P dflt → P (rd dflt b i).
Proof.
  intros Hb Hd. destruct (decide (0 ≤ i < Z.of_nat (length b))) as [Hi|Hi].
  - eapply Forall_lookup_1; [done|]. by apply rd_in.
  - by rewrite rd_out.
Qed.

Lemma wr_out {A : Type} (b : list A) (i : Z) (v : A) :
  ¬ (0 ≤ i < Z.of_nat (length b)) → wr b i v = b.
Proof.
  intros Hi. unfold wr. case_bool_decide; [|done].
  rewrite list_insert_ge; [done|lia].
Qed.

Lemma sumZ_insert (l : list Z) (i : nat) (c v : Z) :
  l !! i = Some c → sumZ (<[i := v]> l) = sumZ l - c + v.
Proof.
  revert i. induction l as [|a l IH]; intros [|i] Hl; simplify_eq/=; try lia.
  rewrite (IH i Hl). lia.
Qed.

Lemma sumZ_wr (l : list Z) (i v : Z) :
  0 ≤ i < Z.of_nat (length l) → sumZ (wr l i v) = sumZ l - rdz l i + v.
Proof.
  intros Hi. unfold wr. rewrite bool_decide_eq_true_2 by lia.
  apply sumZ_insert. by apply rd_in.
Qed.

Lemma sumZ_replicate_0 (n : nat) : sumZ (replicate n 0) = 0.
Proof. induction n as [|n IH]; unfold sumZ in *; simpl; lia. Qed.

Lemma sumZ_le_length (l : list Z) :
  Forall (fun c => c ≤ 1) l → sumZ l ≤ Z.of_nat (length l).
Proof. induction 1 as [|a l Ha _ IH]; simpl in *; lia. Qed.

Lemma sumZ_lt_length (l : list Z) (i : nat) (c : Z) :
  Forall (fun c => c ≤ 1) l → l !! i = Some c → c ≤ 0 → sumZ l < Z.of_nat (length l).
Proof.
  intros Hl. revert i. induction Hl as [|a l Ha Hl IH]; intros [|i] Hi Hc; simplify_eq/=.
  - pose proof (sumZ_le_length l Hl). lia.
  - specialize (IH i Hi Hc). lia.
Qed.

(** Counts that sum to at least their number, one of them zero: some
    cluster holds two points or more. *)
Lemma exists_donor (n : Z) (nelts : list Z) (k : Z) :
  Z.of_nat (length nelts) ≤ n → sumZ nelts = n →
  0 ≤ k < Z.of_nat (length nelts) → rdz nelts k = 0 →
  ∃ m, 0 ≤ m < Z.of_nat (length nelts) ∧ 2 ≤ rdz nelts m.
Proof.
  intros Hn Hsum Hk Hzero.
  destruct (decide (Exists (fun c => 2 ≤ c) nelts)) as [Hex|Hnex].
  - apply Exists_exists in Hex as (c & Hin & Hc).
    apply list_elem_of_In, list_elem_of_lookup in Hin as [i Hi].
    pose proof (lookup_lt_Some _ _ _ Hi).
    exists (Z.of_nat i). split; [lia|].
    unfold rdz. by rewrite (rd_lookup 0 nelts (Z.of_nat i) c) by (rewrite ?Nat2Z.id; done || lia).
  - exfalso. apply not_Exists_Forall in Hnex; [|intros c; apply _].
    assert (Forall (fun c => c ≤ 1) nelts) as Hle.
    { revert Hnex. apply Forall_impl. intros c; simpl; lia. }
    pose proof (sumZ_lt_length nelts (Z.to_nat k) 0 Hle) as Hlt.
    rewrite (rd_in 0 nelts k Hk) in Hlt. fold (rdz nelts k) in Hlt. rewrite Hzero in Hlt.
    specialize (Hlt eq_refl ltac:(lia)). lia.
Qed.

(** ** The donor search (C8) *)

Section Donor.
Context {G : Type} `{Rng G} `{Consts}.

Lemma donor_unfold (f : nat) (n : Z) (nelts : list Z) (m : Z) (g : G) :
  donor (Datatypes.S f) n nelts m g =
  if Qle_bool (inject_Z (rdz nelts m - 1)) ((runiform g).1 * inject_Z (n - ksub_))
  then donor f n nelts (Z.rem (m + 1) ksub_) (runiform g).2
  else Done (m, (runiform g).2).
Proof. simpl. by destruct (runiform g). Qed.

(** On exit the donor holds at least two points. *)
Lemma donor_exit `{!RngLaws G} (fuel : nat) (n : Z) (nelts : list Z) (m : Z) (g : G)
    (m' : Z) (g' : G) :
  ksub_ ≤ n → 0 ≤ m < ksub_ →
  donor fuel n nelts m g = Done (m', g') →
  0 ≤ m' < ksub_ ∧ 2 ≤ rdz nelts m'.
Proof.
  intros Hn. revert m g. induction fuel as [|f IH]; intros m g Hm Hd; [done|].
  rewrite donor_unfold in Hd.
  destruct (Qle_bool _ _) eqn:E.
  - apply (IH (Z.rem (m + 1) ksub_) (runiform g).2); [|done].
    apply Z.rem_bound_pos; unfold ksub_ in *; lia.
  - simplify_eq. split; [done|].
    destruct (runiform_range g) as [Hr0 _].
    assert (0 <= (runiform g).1 * inject_Z (n - ksub_))%Q as Hp.
    { apply Qmult_le_0_compat; [done|]. rewrite <- (Zle_Qle 0). lia. }
    assert (¬ (inject_Z (rdz nelts m' - 1) <= (runiform g).1 * inject_Z (n - ksub_))%Q) as Hlt.
    { intros Hle. apply Qle_bool_iff in Hle. congruence. }
    apply Qnot_le_lt in Hlt.
    assert (inject_Z 0 < inject_Z (rdz nelts m' - 1))%Q as Hz by (eapply Qle_lt_trans; done).
    rewrite <- Zlt_Qlt in Hz. lia.
Qed.

(** With draws [r] such that [r * (n - ksub_) < 1] the search stops at
    the first cluster of two points or more. *)
Lemma donor_finds `{!RngLaws G} (fuel : nat) (n : Z) (nelts : list Z) (m m1 : Z) (g : G) :
  (∀ i, draw g i * inject_Z (n - ksub_) < 1)%Q →
  0 ≤ m ≤ m1 → m1 < ksub_ → 2 ≤ rdz nelts m1 →
  ksub_ - m ≤ Z.of_nat fuel →
  ∃ m' g', donor fuel n nelts m g = Done (m', g').
Proof.
  revert m g. induction fuel as [|f IH]; intros m g Hdraw Hm Hm1 Hc Hfuel; [lia|].
  rewrite donor_unfold.
  destruct (Qle_bool _ _) eqn:E; [|by eauto].
  apply Qle_bool_iff in E. specialize (Hdraw O) as Hd0. unfold draw in Hd0. simpl in Hd0.
  assert (inject_Z (rdz nelts m - 1) < inject_Z 1)%Q as Hlt by (eapply Qle_lt_trans; done).
  rewrite <- Zlt_Qlt in Hlt.
  assert (m ≠ m1) by (intros ->; lia).
  assert (Z.rem (m + 1) ksub_ = m + 1) as -> by (apply Z.rem_small; lia).
  apply IH; try lia. intros i. apply (Hdraw (Datatypes.S i)).
Qed.


End Donor.

#[global] Instance half_rng_laws : RngLaws unit.
Proof. constructor. intros g. simpl. split; lra. Qed.

#[global] Instance lcg_rng_laws : RngLaws Z.
Proof.
  constructor. intros g. simpl.
  pose proof (Z.mod_pos_bound g 1000 ltac:(lia)) as Hb.
  unfold Qle, Qlt. simpl. lia.
Qed.



(** ** The M-step: sums and means (C10) *)

Lemma disjoint_blocks (k k' d j j' : Z) :
  k ≠ k' → 0 ≤ j < d → 0 ≤ j' < d → k * d + j ≠ k' * d + j'.
Proof. intros Hk Hj Hj' Heq. destruct (Z.lt_trichotomy k k') as [?|[?|?]]; [nia|done|nia]. Qed.

Lemma Forall_wr {A : Type} (P : A → Prop) (b : list A) (i : Z) (v : A) :
  Forall P b → P v → Forall P (wr b i v).
Proof. intros Hb Hv. unfold wr. case_bool_decide; [by apply Forall_insert|done]. Qed.

Lemma memset0_rd (dst : list real) (d0 n p : Z) :
  d0 ≤ p < d0 + n → rdq (memset0 dst d0 n) p = 0%Q.
Proof.
  intros Hp. unfold memset0, rdq.
  rewrite (store_loop_rd 0%Q n d0 (fun _ => 0%Q)) by lia.
  case_bool_decide as Hc; [done|]. apply rd_out. lia.
Qed.

(** A loop that rewrites the cells [c + j] leaves the others alone. *)
Lemma rewrite_loop_frame (d c p : Z) (f : Z → list real → real) (cen : list real) :
  (∀ j, 0 ≤ j < d → c + j ≠ p) →
  rdq (for_ d (fun j cen => wr cen (c + j) (f j cen)) cen) p = rdq cen p.
Proof.
  intros Hp. apply (for_inv (fun r => rdq r p = rdq cen p)); [done|].
  intros j r Hj Hr. unfold rdq in *. rewrite rd_wr_ne; [done|]. by apply Hp.
Qed.

Section Means.
Context {G : Type} `{Rng G} `{Consts}.

(** After the first loop of [MStep]: one count per cluster, none
    negative, summing to the number of points, and the block of every
    cluster without points still cleared. *)
Lemma MStep_sums_spec (x0 : list real) (xo : Z) (centroids : list real) (c0 : Z)
    (codes : list Z) (co : Z) (d n : Z) :
  let '(cen, nelts) := MStep_sums x0 xo centroids c0 codes co d n in
  Z.of_nat (length nelts) = ksub_ ∧
  Forall (fun c => 0 ≤ c) nelts ∧
  (0 ≤ n → sumZ nelts = n) ∧
  (∀ k, 0 ≤ k < ksub_ → rdz nelts k = 0 → block_zero cen c0 d k).
Proof.
  unfold MStep_sums.
  set (body := fun (i : Z) '(x, centroids, nelts) => _).
  set (cen0 := memset0 centroids c0 (d * ksub_)).
  set (nelts0 := replicate (Z.to_nat ksub_) 0).
  pose (P := fun (i : Z) (s : Z * list real * list Z) =>
    Z.of_nat (length s.2) = ksub_ ∧ Forall (fun c => 0 ≤ c) s.2 ∧
    sumZ s.2 = i ∧
    (∀ k, 0 ≤ k < ksub_ → rdz s.2 k = 0 → block_zero s.1.2 c0 d k)).
  assert (P 0 (xo, cen0, nelts0)) as HP0.
  { unfold P, nelts0; cbn [fst snd]. split_and!.
    - rewrite length_replicate. unfold ksub_. lia.
    - by apply Forall_replicate.
    - apply sumZ_replicate_0.
    - intros k Hk _ j Hj. apply memset0_rd. unfold ksub_ in *. nia. }
  destruct (decide (0 ≤ n)) as [Hn|Hn].
  - assert (P n (for_ n body (xo, cen0, nelts0))) as HP.
    { apply for_ind; [done..|].
      intros i [[x cen] nelts] Hi (Hlen & Hpos & Hsum & Hzero). cbn [fst snd] in *.
      unfold body, P; cbn [fst snd].
      set (k' := rdb codes (co + i)).
      assert (0 ≤ k' < ksub_) as Hk'.
      { unfold k', rdb, uint8, ksub_. apply Z.mod_pos_bound. lia. }
      assert (0 ≤ rdz nelts k') as Hc by (by apply (Forall_rd (fun c => 0 ≤ c))).
      split_and!.
      - by rewrite length_wr.
      - apply Forall_wr; [done|lia].
      - rewrite sumZ_wr by lia. lia.
      - intros k Hk Hz j Hj.
        destruct (decide (k = k')) as [->|Hne].
        + unfold rdz in Hz, Hc. rewrite rd_wr_eq in Hz by lia. lia.
        + unfold rdz in Hz. rewrite rd_wr_ne in Hz by done.
          rewrite rewrite_loop_frame.
          * by apply Hzero.
          * intros j' Hj'. pose proof (disjoint_blocks k' k d j' j). lia. }
    destruct (for_ n body _) as [[x cen] nelts].
    destruct HP as (Hlen & Hpos & Hsum & Hzero). cbn [fst snd] in *.
    split_and!; try done.
  - rewrite for_neg by lia.
    destruct HP0 as (Hlen & Hpos & Hsum & Hzero). cbn [fst snd] in *. split_and!; try done.
Qed.

(** The second loop of [MStep] divides by no zero, and leaves the block
    of every cluster without points as it is. *)
Lemma MStep_means_spec (cen : list real) (c0 : Z) (nelts : list Z) (d : Z) :
  (∀ k, 0 ≤ k < ksub_ → rdz nelts k = 0 → block_zero cen c0 d k) →
  ∃ means, MStep_means cen c0 nelts d = Done means ∧
    (∀ k, 0 ≤ k < ksub_ → rdz nelts k = 0 → block_zero means c0 d k).
Proof.
  intros Hzero. unfold MStep_means.
  set (body := fun (k : Z) '(c, centroids) => _).
  pose (P := fun (k : Z) (s : Z * list real) =>
    s.1 = c0 + k * d ∧
    (∀ k0, 0 ≤ k0 < ksub_ → rdz nelts k0 = 0 → block_zero s.2 c0 d k0)).
  destruct (for_M_total P ksub_ body (c0, cen)) as ([c means] & -> & _ & Hm).
  - unfold ksub_. lia.
  - split; [simpl; lia|done].
  - intros k [c cen'] Hk [Hc Hz]. cbn [fst snd] in *. subst c. unfold body.
    destruct (Qeq_bool (inject_Z (rdz nelts k)) 0) eqn:E; cbn [negb].
    + eexists. split; [reflexivity|]. split; [cbn [fst]; lia|done].
    + assert (rdz nelts k ≠ 0) as Hnz.
      { intros Hz0. rewrite Hz0 in E. done. }
      assert (∃ cen'', for_M d (fun j cen1 =>
          q ← real_div (rdq cen1 (c0 + k * d + j)) (inject_Z (rdz nelts k));
          mret (wr cen1 (c0 + k * d + j) q)) cen' = Done cen'' ∧
          (∀ k0, 0 ≤ k0 < ksub_ → rdz nelts k0 = 0 → block_zero cen'' c0 d k0))
        as (cen'' & -> & Hz'').
      { destruct (decide (0 ≤ d)) as [Hd|Hd]; [|rewrite for_M_neg by lia; eauto].
        apply (for_M_total (fun _ cen1 =>
          ∀ k0, 0 ≤ k0 < ksub_ → rdz nelts k0 = 0 → block_zero cen1 c0 d k0)); [done..|].
        intros j cen1 Hj Hz1. unfold real_div. rewrite E. simpl.
        eexists. split; [reflexivity|].
        intros k0 Hk0 Hz0 j0 Hj0. unfold rdq. rewrite rd_wr_ne.
        - by apply Hz1.
        - assert (k ≠ k0) by congruence.
          pose proof (disjoint_blocks k k0 d j j0). lia. }
      simpl. eexists. split; [reflexivity|]. split; [cbn [fst]; lia|done].
  - simpl. eauto.
Qed.

End Means.

(** ** The split of a donor (C6) *)

Section Split.
Context {G : Type} `{Rng G} `{Consts}.

Lemma memcpy_rd (dst : list real) (d0 : Z) (src : list real) (s0 n p : Z) :
  0 ≤ n →
  rdq (memcpy dst d0 src s0 n) p =
  if bool_decide (d0 ≤ p < d0 + n ∧ 0 ≤ p < Z.of_nat (length dst))
  then rdq src (s0 + (p - d0)) else rdq dst p.
Proof.
  intros Hn. unfold memcpy, rdq.
  by rewrite (store_loop_rd 0%Q n d0 (fun j => rd 0%Q src (s0 + j))) by done.
Qed.

Lemma memcpy_length (dst : list real) (d0 : Z) (src : list real) (s0 n : Z) :
  length (memcpy dst d0 src s0 n) = length dst.
Proof. unfold memcpy. apply (store_loop_length n d0 (fun j => rdq src (s0 + j))). Qed.

(** A split writes the blocks of [k] and [m] only. *)
Lemma split_centroid_frame (cen : list real) (c0 k m d p : Z) :
  (∀ j, 0 ≤ j < d → c0 + k * d + j ≠ p) →
  (∀ j, 0 ≤ j < d → c0 + m * d + j ≠ p) →
  rdq (split_centroid cen c0 k m d) p = rdq cen p.
Proof.
  intros Hk Hm. unfold split_centroid.
  set (cen1 := memcpy cen (c0 + k * d) cen (c0 + m * d) d).
  assert (rdq cen1 p = rdq cen p) as <-.
  { unfold cen1, memcpy. apply (rewrite_loop_frame d (c0 + k * d) p
      (fun j _ => rdq cen (c0 + m * d + j))). done. }
  apply (for_inv (fun r => rdq r p = rdq cen1 p)); [done|].
  intros j r Hj Hr. unfold rdq in *.
  rewrite !rd_wr_ne; [done|by apply Hk|by apply Hm].
Qed.

Lemma split_centroid_length (cen : list real) (c0 k m d : Z) :
  length (split_centroid cen c0 k m d) = length cen.
Proof.
  unfold split_centroid. rewrite <- (memcpy_length cen (c0 + k * d) cen (c0 + m * d) d).
  apply (for_inv (fun r => length r = length (memcpy cen (c0 + k * d) cen (c0 + m * d) d)));
    [done|].
  intros j r Hj Hr. by rewrite !length_wr.
Qed.

(** After a split, coordinate [j] of the new centroid is the donor's
    plus [sign * eps_] and that of the donor is its own minus
    [sign * eps_]. *)
Lemma split_centroid_spec (cen : list real) (c0 k m d j : Z) :
  0 ≤ c0 → 0 ≤ k < ksub_ → 0 ≤ m < ksub_ → k ≠ m →
  c0 + ksub_ * d ≤ Z.of_nat (length cen) →
  0 ≤ j < d →
  let cen' := split_centroid cen c0 k m d in
  rdq cen' (c0 + k * d + j) = (rdq cen (c0 + m * d + j) + inject_Z (split_sign j) * eps_)%Q ∧
  rdq cen' (c0 + m * d + j) = (rdq cen (c0 + m * d + j) - inject_Z (split_sign j) * eps_)%Q.
Proof.
  intros Hc0 Hk Hm Hkm Hlen Hj. unfold split_centroid.
  set (cen1 := memcpy cen (c0 + k * d) cen (c0 + m * d) d).
  set (body := fun (j : Z) (cen : list real) => _).
  assert (length cen1 = length cen) as Hlen1 by apply memcpy_length.
  assert (∀ j', 0 ≤ j' < d → 0 ≤ c0 + k * d + j' < Z.of_nat (length cen)) as HinK.
  { intros j' Hj'. unfold ksub_ in *. nia. }
  assert (∀ j', 0 ≤ j' < d → 0 ≤ c0 + m * d + j' < Z.of_nat (length cen)) as HinM.
  { intros j' Hj'. unfold ksub_ in *. nia. }
  assert (∀ j', 0 ≤ j' < d → rdq cen1 (c0 + k * d + j') = rdq cen (c0 + m * d + j')) as HK.
  { intros j' Hj'. unfold cen1. rewrite memcpy_rd by lia.
    rewrite bool_decide_eq_true_2.
    - f_equal. lia.
    - split; [lia|]. by apply HinK. }
  assert (∀ j', 0 ≤ j' < d → rdq cen1 (c0 + m * d + j') = rdq cen (c0 + m * d + j')) as HM.
  { intros j' Hj'. unfold cen1. rewrite memcpy_rd by lia.
    rewrite bool_decide_eq_false_2; [done|].
    intros [Hr _]. pose proof (disjoint_blocks k m d (c0 + m * d + j' - (c0 + k * d)) j'). lia. }
  pose (P := fun (i : Z) (r : list real) =>
    length r = length cen ∧
    ∀ j', 0 ≤ j' < d →
      (j' < i →
        rdq r (c0 + k * d + j') = (rdq cen1 (c0 + k * d + j') + inject_Z (split_sign j') * eps_)%Q ∧
        rdq r (c0 + m * d + j') = (rdq cen1 (c0 + m * d + j') - inject_Z (split_sign j') * eps_)%Q) ∧
      (i ≤ j' →
        rdq r (c0 + k * d + j') = rdq cen1 (c0 + k * d + j') ∧
        rdq r (c0 + m * d + j') = rdq cen1 (c0 + m * d + j'))).
  assert (P d (for_ d body cen1)) as [_ HP].
  { apply for_ind; [lia| |].
    - split; [done|]. intros j' Hj'. split; [lia|done].
    - intros i r Hi [Hlr Hr]. unfold body. split; [by rewrite !length_wr|].
      intros j' Hj'.
      assert (c0 + k * d + i ≠ c0 + m * d + i) as Hne1.
      { pose proof (disjoint_blocks k m d i i). lia. }
      destruct (decide (j' = i)) as [->|Hne].
      + split; [intros _|lia].
        destruct (Hr i Hi) as [_ Hge]. destruct (Hge ltac:(lia)) as [HrK HrM].
        unfold rdq in *. split.
        * rewrite rd_wr_ne by lia. rewrite rd_wr_eq.
          -- by rewrite HrK.
          -- rewrite Hlr. by apply HinK.
        * rewrite rd_wr_eq.
          -- rewrite rd_wr_ne by done. by rewrite HrM.
          -- rewrite length_wr, Hlr. by apply HinM.
      + assert (c0 + k * d + i ≠ c0 + k * d + j') by lia.
        assert (c0 + m * d + i ≠ c0 + m * d + j') by lia.
        assert (c0 + k * d + i ≠ c0 + m * d + j').
        { pose proof (disjoint_blocks k m d i j'). lia. }
        assert (c0 + m * d + i ≠ c0 + k * d + j').
        { pose proof (disjoint_blocks m k d i j'). lia. }
        unfold rdq in *. rewrite !rd_wr_ne by done.
        destruct (Hr j' Hj') as [Hlt Hge].
        split; intros Hc; [apply Hlt|apply Hge]; lia. }
  destruct (HP j Hj) as [[HrK HrM] _]; [lia|].
  rewrite HrK, HrM, HK, HM by done. done.
Qed.

(** C6 (as the code has it).  In the split of donor [m] into the empty
    slot [k], for an even coordinate [j] the new centroid is the donor's
    old coordinate less [eps_] and the donor's becomes its old coordinate
    plus [eps_]; for an odd [j] the directions are reversed; either way
    the mean of the two new coordinates is the donor's old one. *)
Theorem split_centroid_perturbation (cen : list real) (c0 k m d j : Z) :
  0 ≤ c0 → 0 ≤ k < ksub_ → 0 ≤ m < ksub_ → k ≠ m →
  c0 + ksub_ * d ≤ Z.of_nat (length cen) →
  0 ≤ j < d →
  let old := rdq cen (c0 + m * d + j) in
  let new_k := rdq (split_centroid cen c0 k m d) (c0 + k * d + j) in
  let new_m := rdq (split_centroid cen c0 k m d) (c0 + m * d + j) in
  (Z.rem j 2 = 0 → (new_k == old - eps_ ∧ new_m == old + eps_)%Q) ∧
  (Z.rem j 2 = 1 → (new_k == old + eps_ ∧ new_m == old - eps_)%Q) ∧
  (Z.rem j 2 = 0 ∨ Z.rem j 2 = 1) ∧
  ((new_k + new_m) / 2 == old)%Q.
Proof.
  intros Hc0 Hk Hm Hkm Hlen Hj old new_k new_m.
  destruct (split_centroid_spec cen c0 k m d j Hc0 Hk Hm Hkm Hlen Hj) as [HK HM].
  fold old new_k in HK. fold old new_m in HM. rewrite HK, HM. unfold split_sign.
  split_and!.
  - intros ->. change (inject_Z (0 * 2 - 1)) with (- (1))%Q. split; ring.
  - intros ->. change (inject_Z (1 * 2 - 1)) with 1%Q. split; ring.
  - pose proof (Z.rem_bound_pos j 2 ltac:(lia) ltac:(lia)). lia.
  - field.
Qed.

End Split.

Lemma split_centroid_perturbation_witness :
  0 ≤ 0 ∧ 0 ≤ 1 < ksub_ ∧ 0 ≤ 0 < ksub_ ∧ 1 ≠ 0 ∧
  0 + ksub_ * 2 ≤ Z.of_nat (length (replicate 512 (5 # 1))) ∧ 0 ≤ 1 < 2 ∧
  ((rdq (split_centroid (H0 := test_consts) (replicate 512 (5 # 1)) 0 1 0 2) (0 + 1 * 2 + 1) +
    rdq (split_centroid (H0 := test_consts) (replicate 512 (5 # 1)) 0 1 0 2) (0 + 0 * 2 + 1)) / 2
   == rdq (replicate 512 (5 # 1)) (0 + 0 * 2 + 1))%Q.
Proof.
  assert (0 ≤ 0) as H1 by lia.
  assert (0 ≤ 1 < ksub_) as H2 by (unfold ksub_; lia).
  assert (0 ≤ 0 < ksub_) as H3 by (unfold ksub_; lia).
  assert (1 ≠ 0) as H4 by lia.
  assert (0 + ksub_ * 2 ≤ Z.of_nat (length (replicate 512 (5 # 1)))) as H5 by (vm_compute; discriminate).
  assert (0 ≤ 1 < 2) as H6 by lia.
  repeat (split; [assumption|]).
  apply (split_centroid_perturbation (H0 := test_consts) (replicate 512 (5 # 1)) 0 1 0 2 1 H1 H2 H3 H4 H5 H6).
Defined.

(** At the even coordinate 0 the donor does not decrease and the new
    centroid does not increase: donor 0 of value 5 becomes [5 + eps_],
    slot 1 becomes [5 - eps_]. *)
Lemma split_even_direction :
  let cen' := split_centroid (H0 := test_consts) (replicate 256 (5 # 1)) 0 1 0 1 in
  ¬ (rdq cen' 0 == (5 # 1) - eps_ (Consts := test_consts) ∧
     rdq cen' 1 == (5 # 1) + eps_ (Consts := test_consts))%Q.
Proof. vm_compute. intros [Hd _]. discriminate Hd. Qed.

(** ** The reseed pass (C7) *)

Lemma rdz_wr_eq (b : list Z) (i v : Z) :
  0 ≤ i < Z.of_nat (length b) → rdz (wr b i v) i = v.
Proof. apply rd_wr_eq. Qed.

Lemma rdz_wr_ne (b : list Z) (i j v : Z) : i ≠ j → rdz (wr b i v) j = rdz b j.
Proof. apply rd_wr_ne. Qed.

Section Reseed.
Context {G : Type} `{Rng G} `{Consts} `{!RngLaws G}.

Lemma reseed_pass_body (kmax : Z) (fuel : nat) (centroids : list Q) (c0 : Z)
    (nelts : list Z) (d n : Z) (g : G) :
  reseed_pass kmax fuel centroids c0 nelts d n g =
  for_M kmax (reseed_body fuel c0 d n) (centroids, nelts, g).
Proof. reflexivity. Qed.

Lemma half_bounds (c : Z) : 2 ≤ c → 1 ≤ Z.quot c 2 ∧ 1 ≤ c - Z.quot c 2.
Proof. intros Hc. rewrite Z.quot_div_nonneg by lia. Z.div_mod_to_equations. lia. Qed.

Lemma reseed_body_inv (fuel : nat) (c0 d n : Z) (k : Z) (s s' : list Q * list Z * G) :
  ksub_ ≤ n → 0 ≤ k < ksub_ →
  reseed_inv c0 d n k s →
  reseed_body fuel c0 d n k s = Done s' →
  reseed_inv c0 d n (k + 1) s'.
Proof.
  intros Hn Hk. destruct s as [[cen nelts] g].
  intros (Hlen & Hsum & Hpos & Hdone & Hzero). cbn [fst snd] in *.
  unfold reseed_body. destruct (Z.eqb_spec (rdz nelts k) 0) as [Hz|Hnz].
  - destruct (donor fuel n nelts 0 g) as [[m g']| |] eqn:Ed; simpl; try done.
    intros [= <-].
    destruct (donor_exit fuel n nelts 0 g m g' Hn ltac:(unfold ksub_; lia) Ed) as [Hm Hc].
    assert (m ≠ k) as Hmk by (intros ->; lia).
    destruct (half_bounds _ Hc) as [Hh1 Hh2].
    set (h := Z.quot (rdz nelts m) 2) in *.
    set (a := wr nelts k h).
    assert (rdz a m = rdz nelts m) as Ham by (unfold a; by rewrite rdz_wr_ne).
    assert (rdz a k = h) as Hak by (unfold a; rewrite rdz_wr_eq; [done|lia]).
    assert (length a = length nelts) as Hla by apply length_wr.
    unfold reseed_inv; cbn [fst snd]. rewrite Ham, Hak. split_and!.
    + by rewrite length_wr, Hla.
    + rewrite sumZ_wr by lia. rewrite Ham. unfold a. rewrite sumZ_wr by lia. lia.
    + apply Forall_wr; [apply Forall_wr; [done|lia]|lia].
    + intros i Hi.
      destruct (decide (i = m)) as [->|Him]; [rewrite rdz_wr_eq; lia|].
      rewrite rdz_wr_ne by done.
      destruct (decide (i = k)) as [->|Hik]; [lia|].
      unfold a. rewrite rdz_wr_ne by done. apply Hdone. lia.
    + intros k0 Hk0.
      destruct (decide (k0 = m)) as [->|Hkm]; [rewrite rdz_wr_eq by lia; lia|].
      rewrite rdz_wr_ne by done. unfold a. rewrite rdz_wr_ne by lia.
      intros Hz0 j Hj. rewrite split_centroid_frame.
      * by apply Hzero; [lia|..].
      * intros j' Hj'. pose proof (disjoint_blocks k k0 d j' j). lia.
      * intros j' Hj'. pose proof (disjoint_blocks m k0 d j' j). lia.
  - simpl. intros [= <-]. unfold reseed_inv; cbn [fst snd]. split_and!; try done.
    + intros i Hi. destruct (decide (i = k)) as [->|Hik]; [|apply Hdone; lia].
      assert (0 ≤ rdz nelts k) by (by apply (Forall_rd (fun c => 0 ≤ c))). lia.
    + intros k0 Hk0. apply Hzero. lia.
Qed.

(** With draws [r] such that [r * (n - ksub_) < 1], whatever the state
    of the engine, every donor search of the pass ends. *)
Lemma reseed_body_total (fuel : nat) (c0 d n : Z) (k : Z) (s : list Q * list Z * G) :
  (∀ g i, draw g i * inject_Z (n - ksub_) < 1)%Q →
  ksub_ ≤ Z.of_nat fuel →
  ksub_ ≤ n → 0 ≤ k < ksub_ →
  reseed_inv c0 d n k s →
  ∃ s', reseed_body fuel c0 d n k s = Done s'.
Proof.
  intros Hdraw Hfuel Hn Hk. destruct s as [[cen nelts] g].
  intros (Hlen & Hsum & Hpos & Hdone & Hzero). cbn [fst snd] in *.
  unfold reseed_body. destruct (Z.eqb_spec (rdz nelts k) 0) as [Hz|Hnz]; [|by eauto].
  destruct (exists_donor n nelts k) as (m1 & Hm1 & Hc1); [lia..|].
  destruct (donor_finds fuel n nelts 0 m1 g (Hdraw g)) as (m' & g' & ->); [lia..|].
  simpl. eauto.
Qed.

Lemma reseed_pass_inv (kmax : Z) (fuel : nat) (cen : list Q) (c0 : Z) (nelts : list Z)
    (d n : Z) (g : G) (s' : list Q * list Z * G) :
  ksub_ ≤ n → 0 ≤ kmax ≤ ksub_ →
  reseed_inv c0 d n 0 (cen, nelts, g) →
  reseed_pass kmax fuel cen c0 nelts d n g = Done s' →
  reseed_inv c0 d n kmax s'.
Proof.
  intros Hn Hk Hstart. rewrite reseed_pass_body.
  apply (for_M_partial (reseed_inv c0 d n)); [lia|done|].
  intros i s1 s2 Hi Hs1. apply reseed_body_inv; [done|lia|done].
Qed.

Lemma reseed_pass_total (kmax : Z) (fuel : nat) (cen : list Q) (c0 : Z) (nelts : list Z)
    (d n : Z) (g : G) :
  (∀ g i, draw g i * inject_Z (n - ksub_) < 1)%Q →
  ksub_ ≤ Z.of_nat fuel →
  ksub_ ≤ n → 0 ≤ kmax ≤ ksub_ →
  reseed_inv c0 d n 0 (cen, nelts, g) →
  ∃ s', reseed_pass kmax fuel cen c0 nelts d n g = Done s' ∧ reseed_inv c0 d n kmax s'.
Proof.
  intros Hdraw Hfuel Hn Hk Hstart. rewrite reseed_pass_body.
  apply (for_M_total (reseed_inv c0 d n)); [lia|done|].
  intros i s1 Hi Hs1.
  destruct (reseed_body_total fuel c0 d n i s1) as [s2 Hs2]; [done..|lia|done|].
  exists s2. split; [done|]. eapply reseed_body_inv; [done| |done..]. lia.
Qed.

(** The state between the second loop of [MStep] and the reseed pass
    satisfies the invariant of the pass. *)
Lemma reseed_inv_start (x0 : list Q) (xo : Z) (centroids : list Q) (c0 : Z)
    (codes : list Z) (co : Z) (d n : Z) (g : G) :
  0 ≤ n →
  ∃ means, MStep_means (MStep_sums x0 xo centroids c0 codes co d n).1 c0
             (MStep_sums x0 xo centroids c0 codes co d n).2 d = Done means ∧
    reseed_inv c0 d n 0 (means, (MStep_sums x0 xo centroids c0 codes co d n).2, g).
Proof.
  intros Hn.
  pose proof (MStep_sums_spec x0 xo centroids c0 codes co d n) as Hs.
  destruct (MStep_sums x0 xo centroids c0 codes co d n) as [sums nelts].
  destruct Hs as (Hlen & Hpos & Hsum & Hzero). cbn [fst snd].
  destruct (MStep_means_spec sums c0 nelts d Hzero) as (means & Hmeans & Hz).
  exists means. split; [done|]. unfold reseed_inv; cbn [fst snd].
  split_and!; [done|by apply Hsum|done|lia|].
  intros k0 Hk0. apply Hz. lia.
Qed.

Lemma MStep_counts_unfold (fuel : nat) (x0 : list Q) (xo : Z) (centroids : list Q)
    (c0 : Z) (codes : list Z) (co : Z) (d n : Z) (g : G) (means : list Q) :
  MStep_means (MStep_sums x0 xo centroids c0 codes co d n).1 c0
    (MStep_sums x0 xo centroids c0 codes co d n).2 d = Done means →
  MStep_counts fuel x0 xo centroids c0 codes co d n g =
  reseed_pass ksub_ fuel means c0 (MStep_sums x0 xo centroids c0 codes co d n).2 d n g.
Proof.
  intros Hm. unfold MStep_counts.
  destruct (MStep_sums x0 xo centroids c0 codes co d n) as [sums nelts].
  cbn [fst snd] in *. by rewrite Hm.
Qed.

(** With exactly [ksub_] points every donor search ends: the M-step
    returns. *)
Lemma MStep_counts_total (fuel : nat) (x0 : list Q) (xo : Z) (centroids : list Q)
    (c0 : Z) (codes : list Z) (co : Z) (d n : Z) (g : G) :
  n = ksub_ → ksub_ ≤ Z.of_nat fuel →
  ∃ r, MStep_counts fuel x0 xo centroids c0 codes co d n g = Done r.
Proof.
  intros Hnk Hfuel.
  destruct (reseed_inv_start x0 xo centroids c0 codes co d n g) as (means & Hmeans & Hinv);
    [unfold ksub_ in *; lia|].
  rewrite (MStep_counts_unfold _ _ _ _ _ _ _ _ _ _ means Hmeans).
  assert (∀ g0 i, draw g0 i * inject_Z (n - ksub_) < 1)%Q as Hdraw.
  { intros g0 i. rewrite Hnk, Z.sub_diag.
    assert (draw g0 i * inject_Z 0 == 0)%Q as -> by ring. reflexivity. }
  assert (0 ≤ ksub_ ≤ ksub_) as Hk by (unfold ksub_; lia).
  destruct (reseed_pass_total ksub_ fuel means c0 _ d n g Hdraw Hfuel ltac:(lia) Hk Hinv)
    as (s' & Hs' & _).
  by exists s'.
Qed.

(** C7.  After an M-step on [n >= ksub_] points no recorded count is
    zero and the recorded counts sum to [n]; with exactly [ksub_] points
    the M-step returns whatever the engine draws. *)
Theorem MStep_counts_after_reseed (fuel : nat) (x0 : list Q) (xo : Z) (centroids : list Q)
    (c0 : Z) (codes : list Z) (co : Z) (d n : Z) (g : G) :
  ksub_ ≤ n →
  match MStep_counts fuel x0 xo centroids c0 codes co d n g with
  | Done (_, nelts, _) =>
      Z.of_nat (length nelts) = ksub_ ∧
      (∀ k, 0 ≤ k < ksub_ → rdz nelts k ≠ 0) ∧
      sumZ nelts = n
  | Throw _ => False
  | OutOfFuel => True
  end ∧
  (n = ksub_ → ksub_ ≤ Z.of_nat fuel →
   ∃ r, MStep_counts fuel x0 xo centroids c0 codes co d n g = Done r).
Proof.
  intros Hn.
  destruct (reseed_inv_start x0 xo centroids c0 codes co d n g) as (means & Hmeans & Hinv);
    [unfold ksub_ in *; lia|].
  rewrite (MStep_counts_unfold _ _ _ _ _ _ _ _ _ _ means Hmeans). split.
  - destruct (reseed_pass _ _ _ _ _ _ _ _) as [[[cen' nelts'] g']|e|] eqn:E; [| |done].
    + apply reseed_pass_inv in E; [|done|unfold ksub_; lia|done].
      destruct E as (Hlen & Hsum & Hpos & Hdone & _). cbn [fst snd] in *.
      split_and!; try done. intros k Hk. specialize (Hdone k Hk). lia.
    + revert E. rewrite reseed_pass_body. unfold for_M.
      apply (for_inv (fun r => r = Throw e → False)); [done|].
      intros i [[[cen1 nelts1] g1]|e1|] Hi Hr; simpl; [|by auto|done].
      destruct (rdz nelts1 i =? 0); [|done].
      clear. revert g1. generalize 0 as m. induction fuel as [|f IH]; intros m g1; [done|].
      rewrite donor_unfold. destruct (Qle_bool _ _); [apply IH|done].
  - intros Hnk Hfuel.
    rewrite <- (MStep_counts_unfold fuel _ _ _ _ _ _ _ _ g means Hmeans).
    by apply MStep_counts_total.
Qed.

(** C10.  In an M-step the division of the sums is guarded by the
    count: the second loop returns without a division by zero.  The
    block of a cluster without assigned points is, after the first loop
    and after the second, the zeros written by the initial clearing; on
    [n >= ksub_] points it stays so while the reseed pass has not reached
    the cluster, and the pass then replaces it by the split of a donor. *)
Theorem MStep_means_no_division_by_zero (fuel : nat) (x0 : list Q) (xo : Z)
    (centroids : list Q) (c0 : Z) (codes : list Z) (co : Z) (d n : Z) (g : G) :
  let sums := (MStep_sums x0 xo centroids c0 codes co d n).1 in
  let nelts := (MStep_sums x0 xo centroids c0 codes co d n).2 in
  (∀ k, 0 ≤ k < ksub_ → rdz nelts k = 0 → block_zero sums c0 d k) ∧
  ∃ means, MStep_means sums c0 nelts d = Done means ∧
    (∀ k, 0 ≤ k < ksub_ → rdz nelts k = 0 → block_zero means c0 d k) ∧
    (ksub_ ≤ n →
     ∀ k cen' nelts' g', 0 ≤ k < ksub_ →
       reseed_pass k fuel means c0 nelts d n g = Done (cen', nelts', g') →
       rdz nelts' k = 0 →
       block_zero cen' c0 d k ∧
       ∀ r, reseed_pass (k + 1) fuel means c0 nelts d n g = Done r →
         ∃ m, 0 ≤ m < ksub_ ∧ m ≠ k ∧ 2 ≤ rdz nelts' m ∧
              r.1.1 = split_centroid cen' c0 k m d).
Proof.
  intros sums nelts.
  pose proof (MStep_sums_spec x0 xo centroids c0 codes co d n) as Hs.
  unfold sums, nelts in *. clear sums nelts.
  destruct (MStep_sums x0 xo centroids c0 codes co d n) as [sums nelts].
  destruct Hs as (Hlen & Hpos & Hsum & Hzero). cbn [fst snd]. split; [done|].
  destruct (MStep_means_spec sums c0 nelts d Hzero) as (means & Hmeans & Hz).
  exists means. split_and!; [done..|].
  intros Hn k cen' nelts' g' Hk Hpass Hempty.
  assert (reseed_inv c0 d n 0 (means, nelts, g)) as Hstart.
  { unfold reseed_inv; cbn [fst snd].
    split_and!; [done|apply Hsum; unfold ksub_ in *; lia|done|lia|].
    intros k0 Hk0. apply Hz. lia. }
  pose proof (reseed_pass_inv k fuel means c0 nelts d n g _ Hn ltac:(lia) Hstart Hpass)
    as (_ & _ & _ & _ & Hblocks). cbn [fst snd] in Hblocks.
  split; [apply Hblocks; [lia|done]|].
  intros r. rewrite reseed_pass_body, for_M_succ by lia.
  rewrite <- reseed_pass_body, Hpass. simpl.
  rewrite Hempty. simpl.
  destruct (donor fuel n nelts' 0 g') as [[m g'']| |] eqn:Ed; simpl; try done.
  intros [= <-]. cbn [fst snd].
  destruct (donor_exit fuel n nelts' 0 g' m g'' Hn ltac:(unfold ksub_; lia) Ed) as [Hm Hc].
  exists m. split_and!; try done; try lia. intros ->. lia.
Qed.

End Reseed.

Lemma MStep_counts_after_reseed_witness :
  ksub_ ≤ 256 ∧
  ∃ r, MStep_counts (G := Z) (H0 := test_consts) 300 (replicate 256 1%Q) 0
         (replicate 256 0%Q) 0 (replicate 256 0) 0 1 256 1234 = Done r.
Proof.
  assert (ksub_ ≤ 256) as H1 by (unfold ksub_; lia).
  split; [exact H1|].
  apply (MStep_counts_after_reseed (G := Z) (H0 := test_consts) 300 (replicate 256 1%Q) 0
           (replicate 256 0%Q) 0 (replicate 256 0) 0 1 256 1234 H1);
    [reflexivity|unfold ksub_; lia].
Defined.

Lemma MStep_means_no_division_by_zero_witness :
  ksub_ ≤ 256 ∧
  ∃ means,
    MStep_means
      (MStep_sums (replicate 256 1%Q) 0 (replicate 256 0%Q) 0 (replicate 256 0) 0 1 256).1 0
      (MStep_sums (replicate 256 1%Q) 0 (replicate 256 0%Q) 0 (replicate 256 0) 0 1 256).2 1
    = Done means ∧
    reseed_pass (G := Z) (H0 := test_consts) 1 300 means 0
      (MStep_sums (replicate 256 1%Q) 0 (replicate 256 0%Q) 0 (replicate 256 0) 0 1 256).2
      1 256 1234
    = Done (means,
            (MStep_sums (replicate 256 1%Q) 0 (replicate 256 0%Q) 0 (replicate 256 0) 0 1 256).2,
            1234) ∧
    block_zero means 0 1 1.
Proof.
  assert (ksub_ ≤ 256) as H1 by (unfold ksub_; lia).
  split; [exact H1|].
  destruct (MStep_means_no_division_by_zero (G := Z) (H0 := test_consts) 300
              (replicate 256 1%Q) 0 (replicate 256 0%Q) 0 (replicate 256 0) 0 1 256 1234)
    as (_ & means & Hmeans & _ & Hpass).
  exists means. split; [exact Hmeans|].
  assert (rdz (MStep_sums (replicate 256 1%Q) 0 (replicate 256 0%Q) 0 (replicate 256 0)
                 0 1 256).2 0 = 256) as Hc0 by (vm_compute; reflexivity).
  assert (rdz (MStep_sums (replicate 256 1%Q) 0 (replicate 256 0%Q) 0 (replicate 256 0)
                 0 1 256).2 1 = 0) as Hc1 by (vm_compute; reflexivity).
  assert (reseed_pass (G := Z) (H0 := test_consts) 1 300 means 0
            (MStep_sums (replicate 256 1%Q) 0 (replicate 256 0%Q) 0 (replicate 256 0)
               0 1 256).2 1 256 1234
          = Done (means,
                  (MStep_sums (replicate 256 1%Q) 0 (replicate 256 0%Q) 0 (replicate 256 0)
                     0 1 256).2,
                  1234)) as Hrun.
  { unfold reseed_pass. change 1 with (0 + 1) at 1. rewrite for_M_succ by lia.
    rewrite for_M_neg by lia. rewrite bind_Done. unfold reseed_body.
    cbv beta iota zeta. rewrite Hc0. reflexivity. }
  split; [exact Hrun|].
  assert (0 ≤ 1 < ksub_) as Hk by (unfold ksub_; lia).
  exact (proj1 (Hpass H1 1 _ _ _ Hk Hrun Hc1)).
Defined.

(** ** Training (C3) *)

Lemma for_M_no_throw {S : Type} (n : Z) (body : Z → S → outcome S) (s : S) (e : error) :
  (∀ i s, body i s ≠ Throw e) → for_M n body s ≠ Throw e.
Proof.
  intros Hbody. unfold for_M.
  apply (for_inv (fun r => r ≠ Throw e)); [done|].
  intros i [s1|e1|] Hi Hr; simpl; [apply Hbody|done|done].
Qed.

Section Train.
Context {G : Type} `{Rng G} `{Consts} `{!RngLaws G}.

Lemma donor_no_throw (fuel : nat) (n : Z) (nelts : list Z) (m : Z) (g : G) (e : error) :
  donor fuel n nelts m g ≠ Throw e.
Proof.
  revert m g. induction fuel as [|f IH]; intros m g; [done|].
  rewrite donor_unfold. destruct (Qle_bool _ _); [apply IH|done].
Qed.

Lemma MStep_counts_no_throw (fuel : nat) (x0 : list Q) (xo : Z) (centroids : list Q)
    (c0 : Z) (codes : list Z) (co : Z) (d n : Z) (g : G) (e : error) :
  MStep_counts fuel x0 xo centroids c0 codes co d n g ≠ Throw e.
Proof.
  unfold MStep_counts.
  pose proof (MStep_sums_spec x0 xo centroids c0 codes co d n) as Hs.
  destruct (MStep_sums x0 xo centroids c0 codes co d n) as [sums nelts].
  destruct Hs as (_ & _ & _ & Hzero).
  destruct (MStep_means_spec sums c0 nelts d Hzero) as (means & -> & _). simpl.
  unfold MStep_reseed. rewrite reseed_pass_body. apply for_M_no_throw.
  intros i [[cen1 nelts1] g1]. unfold reseed_body.
  destruct (rdz nelts1 i =? 0); [|done].
  pose proof (donor_no_throw fuel n nelts1 0 g1 e) as Hd. revert Hd.
  destruct (donor fuel n nelts1 0 g1) as [[m g2]| |]; outcome_done.
Qed.

Lemma MStep_no_throw (fuel : nat) (x0 : list Q) (xo : Z) (centroids : list Q)
    (c0 : Z) (codes : list Z) (co : Z) (d n : Z) (g : G) (e : error) :
  MStep fuel x0 xo centroids c0 codes co d n g ≠ Throw e.
Proof.
  unfold MStep.
  pose proof (MStep_counts_no_throw fuel x0 xo centroids c0 codes co d n g e) as Hd.
  revert Hd. destruct (MStep_counts _ _ _ _ _ _ _ _ _ _) as [[[c1 n1] g1]| |]; outcome_done.
Qed.

Lemma MStep_total (fuel : nat) (x0 : list Q) (xo : Z) (centroids : list Q)
    (c0 : Z) (codes : list Z) (co : Z) (d n : Z) (g : G) :
  n = ksub_ → ksub_ ≤ Z.of_nat fuel →
  ∃ r, MStep fuel x0 xo centroids c0 codes co d n g = Done r.
Proof.
  intros Hn Hfuel. unfold MStep.
  destruct (MStep_counts_total fuel x0 xo centroids c0 codes co d n g Hn Hfuel)
    as [[[c1 n1] g1] ->].
  simpl. eauto.
Qed.

Lemma kmeans_no_throw (fuel : nat) (x : list Q) (xo : Z) (c : list Q) (c0 : Z)
    (n d : Z) (g : G) (e : error) :
  kmeans fuel x xo c c0 n d g ≠ Throw e.
Proof.
  unfold kmeans. destruct (shuffle (seqZ 0 n) g) as [perm g1].
  match goal with |- context [for_M niter_ ?b ?s] =>
    pose proof (for_M_no_throw niter_ b s e) as Hloop end.
  match type of Hloop with ?A → _ => assert A as Hbody end.
  { intros i [[c1 codes1] g2].
    pose proof (MStep_no_throw fuel x xo c1 c0 (Estep x xo c1 c0 codes1 0 d n) 0 d n g2 e)
      as Hd.
    revert Hd. destruct (MStep _ _ _ _ _ _ _ _ _ _) as [[c2 g3]| |]; outcome_done. }
  specialize (Hloop Hbody). revert Hloop.
  destruct (for_M niter_ _ _) as [[[c1 codes1] g2]| |]; outcome_done.
Qed.

Lemma kmeans_total (fuel : nat) (x : list Q) (xo : Z) (c : list Q) (c0 : Z)
    (n d : Z) (g : G) :
  n = ksub_ → ksub_ ≤ Z.of_nat fuel →
  ∃ r, kmeans fuel x xo c c0 n d g = Done r.
Proof.
  intros Hn Hfuel. unfold kmeans. destruct (shuffle (seqZ 0 n) g) as [perm g1].
  match goal with |- context [for_M niter_ ?b ?s] =>
    assert (∃ s', for_M niter_ b s = Done s') as [[[c1 codes1] g2] ->] end.
  { destruct (decide (0 ≤ niter_)) as [Hi|Hi]; [|rewrite for_M_neg by lia; eauto].
    match goal with |- context [for_M niter_ ?b ?s] =>
      destruct (for_M_total (fun _ _ => True) niter_ b s) as (s' & Hs' & _) end; [done..| |eauto].
    intros i [[c1 codes1] g2] _ _.
    destruct (MStep_total fuel x xo c1 c0 (Estep x xo c1 c0 codes1 0 d n) 0 d n g2 Hn Hfuel)
      as [[c2 g3] ->].
    simpl. eauto. }
  simpl. eauto.
Qed.

Lemma train_loop_no_throw (fuel : nat) (n : Z) (x : list Q) (xo : Z)
    (pq : ProductQuantizer G) (e : error) :
  ksub_ ≤ n → (train fuel n x xo pq).1 ≠ Throw e.
Proof.
  intros Hn. unfold train.
  destruct (Z.ltb_spec n ksub_) as [?|_]; [lia|].
  match goal with |- context [for_M (nsubq_ pq) ?b ?s] =>
    pose proof (for_M_no_throw (nsubq_ pq) b s e) as Hloop end.
  match type of Hloop with ?A → _ => assert A as Hbody end.
  { intros m st.
    destruct (if negb (Z.min n max_points_ =? n) then _ else _) as [perm g].
    match goal with |- context [kmeans ?a1 ?a2 ?a3 ?a4 ?a5 ?a6 ?a7 ?a8] =>
      pose proof (kmeans_no_throw a1 a2 a3 a4 a5 a6 a7 a8 e) as Hd; revert Hd;
      destruct (kmeans a1 a2 a3 a4 a5 a6 a7 a8) as [[c1 g1]| |]; outcome_done end. }
  specialize (Hloop Hbody). revert Hloop.
  destruct (for_M (nsubq_ pq) _ _) as [st| |]; outcome_done.
Qed.

Lemma train_total (fuel : nat) (n : Z) (x : list Q) (xo : Z) (pq : ProductQuantizer G) :
  n = ksub_ → ksub_ ≤ max_points_ → ksub_ ≤ Z.of_nat fuel →
  ∃ pq', train fuel n x xo pq = (Done (), pq') ∧
         dim_ pq' = dim_ pq ∧ nsubq_ pq' = nsubq_ pq ∧
         dsub_ pq' = dsub_ pq ∧ lastdsub_ pq' = lastdsub_ pq.
Proof.
  intros Hn Hmax Hfuel. unfold train.
  destruct (Z.ltb_spec n ksub_) as [?|_]; [lia|].
  assert (Z.min n max_points_ = ksub_) as Hnp by lia.
  match goal with |- context [for_M (nsubq_ pq) ?b ?s] =>
    assert (∃ s', for_M (nsubq_ pq) b s = Done s') as [st ->] end.
  { destruct (decide (0 ≤ nsubq_ pq)) as [Hq|Hq]; [|rewrite for_M_neg by lia; eauto].
    match goal with |- context [for_M (nsubq_ pq) ?b ?s] =>
      destruct (for_M_total (fun _ _ => True) (nsubq_ pq) b s) as (s' & Hs' & _) end;
      [done..| |eauto].
    intros m st _ _.
    destruct (if negb (Z.min n max_points_ =? n) then _ else _) as [perm g].
    match goal with |- context [kmeans ?a1 ?a2 ?a3 ?a4 ?a5 ?a6 ?a7 ?a8] =>
      destruct (kmeans_total a1 a2 a3 a4 a5 a6 a7 a8 Hnp Hfuel) as [[c1 g1] ->] end.
    simpl. eauto. }
  eexists. split; [reflexivity|]. done.
Qed.

(** C3.  [train] throws the insufficient-data error exactly when
    [n < ksub_]: it does with [ksub_ - 1] points, and then returns the
    quantizer as it was, table and engine untouched; with [n >= ksub_]
    it throws nothing; with [ksub_] points it returns, the shape kept. *)
Theorem train_insufficient_data (fuel : nat) (n : Z) (x : list Q) (xo : Z)
    (pq : ProductQuantizer G) :
  (n < ksub_ → train fuel n x xo pq = (Throw InvalidArgument, pq)) ∧
  (ksub_ ≤ n → ∀ e, (train fuel n x xo pq).1 ≠ Throw e) ∧
  train fuel (ksub_ - 1) x xo pq = (Throw InvalidArgument, pq) ∧
  (ksub_ ≤ max_points_ → ksub_ ≤ Z.of_nat fuel →
   ∃ pq', train fuel ksub_ x xo pq = (Done (), pq') ∧
          dim_ pq' = dim_ pq ∧ nsubq_ pq' = nsubq_ pq ∧
          dsub_ pq' = dsub_ pq ∧ lastdsub_ pq' = lastdsub_ pq).
Proof.
  split_and!.
  - intros Hn. unfold train. by destruct (Z.ltb_spec n ksub_) as [_|?]; [|lia].
  - intros Hn e. by apply train_loop_no_throw.
  - reflexivity.
  - intros Hmax Hfuel. by apply train_total.
Qed.

End Train.

Lemma train_insufficient_data_witness :
  255 < ksub_ ∧ ksub_ ≤ max_points_ (Consts := test_consts) ∧ ksub_ ≤ Z.of_nat 256 ∧
  train (H0 := test_consts) 256 255 [] 0 test_pq = (Throw InvalidArgument, test_pq) ∧
  ∃ pq', train (H0 := test_consts) 256 ksub_ [] 0 test_pq = (Done (), pq') ∧
         dim_ pq' = dim_ test_pq ∧ nsubq_ pq' = nsubq_ test_pq ∧
         dsub_ pq' = dsub_ test_pq ∧ lastdsub_ pq' = lastdsub_ test_pq.
Proof.
  assert (255 < ksub_) as H1 by (unfold ksub_; lia).
  assert (ksub_ ≤ max_points_ (Consts := test_consts)) as H2 by (unfold ksub_; simpl; lia).
  assert (ksub_ ≤ Z.of_nat 256) as H3 by (unfold ksub_; lia).
  repeat (split; [assumption|]). split.
  - exact (proj1 (train_insufficient_data (H0 := test_consts) 256 255 [] 0 test_pq) H1).
  - exact (proj2 (proj2 (proj2
      (train_insufficient_data (H0 := test_consts) 256 255 [] 0 test_pq))) H2 H3).
Defined.

(** ** Persistence (C4, C5) *)

Lemma int32_bytes_length (v : Z) : length (int32_bytes v) = 4%nat.
Proof. reflexivity. Qed.

Lemma bytes_int32_bytes (v : Z) :
  - 2 ^ 31 ≤ v < 2 ^ 31 → bytes_int32 (int32_bytes v) = v.
Proof.
  intros Hv. unfold bytes_int32, int32_bytes, wrap32, rdz, rd. simpl.
  change (2 ^ 31) with 2147483648 in *. change (2 ^ 32) with 4294967296.
  change (2 ^ 8) with 256. change (2 ^ 16) with 65536. change (2 ^ 24) with 16777216.
  Z.div_mod_to_equations. lia.
Qed.

Lemma stream_read_ok (bs rest old : list Z) :
  length bs = length old →
  stream_read {| in_bytes := bs ++ rest; in_fail := false |} old =
  (bs, {| in_bytes := rest; in_fail := false |}).
Proof.
  intros Hlen. unfold stream_read. simpl.
  rewrite bool_decide_eq_true_2 by (rewrite length_app; lia).
  rewrite <- Hlen. by rewrite take_app_length, drop_app_length.
Qed.

Lemma read_int32_ok (v old : Z) (rest : list Z) :
  - 2 ^ 31 ≤ v < 2 ^ 31 →
  read_int32 {| in_bytes := int32_bytes v ++ rest; in_fail := false |} old =
  (v, {| in_bytes := rest; in_fail := false |}).
Proof.
  intros Hv. unfold read_int32. rewrite stream_read_ok by done.
  by rewrite bytes_int32_bytes.
Qed.

Lemma resize_length (v : list Q) (n : Z) (v' : list Q) :
  resize v n = Done v' → Z.of_nat (length v') = n.
Proof.
  unfold resize. destruct (Z.ltb_spec n 0); [done|]. intros [= <-].
  rewrite length_app, length_take, length_replicate. lia.
Qed.

(** A read at offset [off] delivers [read_over] and moves the stream
    on by the bytes asked for. *)
Lemma stream_read_at (bs : list Z) (off : nat) (s : istream) (old : list Z) :
  stream_at bs off s →
  (stream_read s old).1 = read_over bs off old ∧
  stream_at bs (off + length old) (stream_read s old).2.
Proof.
  unfold stream_at, stream_read, read_over. destruct (in_fail s) eqn:E.
  - intros Hlt. cbn [fst snd]. rewrite E. split; [|lia].
    rewrite drop_ge by lia. by rewrite take_nil.
  - intros [Hb Hle]. rewrite Hb. case_bool_decide as Hn; cbn [fst snd in_fail in_bytes].
    + split.
      * rewrite (drop_ge old) by done. by rewrite app_nil_r.
      * rewrite drop_drop. rewrite length_drop in Hn. split; [done|lia].
    + rewrite length_drop in Hn. split; [|rewrite ?length_drop; lia].
      rewrite take_ge by (rewrite length_drop; lia). done.
Qed.

Lemma read_over_none (bs : list Z) (off : nat) (old : list Z) :
  (length bs ≤ off)%nat → read_over bs off old = old.
Proof. intros Hle. unfold read_over. rewrite drop_ge by done. by rewrite take_nil. Qed.

Lemma read_over_all (bs : list Z) (off : nat) (old : list Z) :
  (off + length old ≤ length bs)%nat →
  read_over bs off old = take (length old) (drop off bs).
Proof.
  intros Hle. unfold read_over. rewrite (drop_ge old) by (rewrite length_drop; lia).
  by rewrite app_nil_r.
Qed.

Lemma resize_rd (v : list Q) (n : Z) (v' : list Q) (j : Z) :
  resize v n = Done v' → 0 ≤ j < n →
  rdq v' j = if bool_decide (j < Z.of_nat (length v)) then rdq v j else 0%Q.
Proof.
  unfold resize. destruct (Z.ltb_spec n 0); [done|]. intros [= <-] Hj.
  unfold rdq, rd. rewrite !bool_decide_eq_true_2 by lia.
  case_bool_decide as Hlt.
  - rewrite lookup_app_l by (rewrite length_take; lia).
    rewrite lookup_take_lt by lia. done.
  - rewrite lookup_app_r by (rewrite length_take; lia).
    rewrite length_take.
    destruct (replicate _ _ !! _) as [q|] eqn:Eq; [|done].
    apply lookup_replicate in Eq as [-> _]. done.
Qed.

Section Persistence.
Context {G : Type} `{Rng G} `{Consts} `{RealRepr}.

Lemma load_unfold (pq : ProductQuantizer G) (s : istream) :
  load pq s =
  let r1 := read_int32 s (dim_ pq) in
  let r2 := read_int32 r1.2 (nsubq_ pq) in
  let r3 := read_int32 r2.2 (dsub_ pq) in
  let r4 := read_int32 r3.2 (lastdsub_ pq) in
  centroids ← resize (centroids_ pq) (wrap32 (r1.1 * ksub_));
  let t := load_table centroids r4.2 in
  mret ({| dim_ := r1.1; nsubq_ := r2.1; dsub_ := r3.1; lastdsub_ := r4.1;
           centroids_ := t.1; rng := rng pq |}, t.2).
Proof.
  unfold load.
  destruct (read_int32 s (dim_ pq)) as [v1 s1]; cbn [fst snd].
  destruct (read_int32 s1 (nsubq_ pq)) as [v2 s2]; cbn [fst snd].
  destruct (read_int32 s2 (dsub_ pq)) as [v3 s3]; cbn [fst snd].
  destruct (read_int32 s3 (lastdsub_ pq)) as [v4 s4]; cbn [fst snd].
  destruct (resize (centroids_ pq) (wrap32 (v1 * ksub_))) as [c| |]; simpl; try done.
  by destruct (load_table c s4) as [c' s'].
Qed.

(** Reading back the table that was written. *)
Lemma load_table_ok (table cen0 : list Q) (rest : list Z) :
  length cen0 = length table →
  (∀ q, length (real_bytes q) = sizeof_real) →
  Forall (fun q => bytes_real (real_bytes q) = q) table →
  load_table cen0 {| in_bytes := concat (real_bytes <$> table) ++ rest; in_fail := false |} =
  (table, {| in_bytes := rest; in_fail := false |}).
Proof.
  intros Hlen Hsize Hround. unfold load_table.
  set (body := fun (i : Z) '(cen, s) => _).
  pose (P := fun (i : Z) (st : list Q * istream) =>
    length st.1 = length table ∧
    st.2 = {| in_bytes := concat (real_bytes <$> drop (Z.to_nat i) table) ++ rest;
              in_fail := false |} ∧
    ∀ p, 0 ≤ p < i → rdq st.1 p = rdq table p).
  assert (P (Z.of_nat (length cen0)) (for_ (Z.of_nat (length cen0)) body
            (cen0, {| in_bytes := concat (real_bytes <$> table) ++ rest; in_fail := false |})))
    as HP.
  { apply for_ind; [lia| |].
    - unfold P; cbn [fst snd]. split_and!; [done|done|lia].
    - intros i [cen s] Hi (Hl & Hs & Hrd). cbn [fst snd] in *. subst s.
      unfold body, P.
      destruct (lookup_lt_is_Some_2 table (Z.to_nat i) ltac:(lia)) as [q Hq].
      rewrite (drop_S _ _ _ Hq). rewrite fmap_cons. cbn [concat].
      unfold read_real. rewrite <- app_assoc.
      rewrite stream_read_ok by (by rewrite !Hsize).
      cbn [fst snd].
      assert (bytes_real (real_bytes q) = q) as ->.
      { eapply Forall_lookup_1 in Hround; [|exact Hq]. done. }
      split_and!.
      + by rewrite length_wr.
      + by replace (Z.to_nat (i + 1)) with (Datatypes.S (Z.to_nat i)) by lia.
      + intros p Hp. unfold rdq. destruct (decide (p = i)) as [->|Hne].
        * rewrite rd_wr_eq by lia. symmetry. by apply rd_lookup; [lia|].
        * rewrite rd_wr_ne by done. apply Hrd. lia. }
  destruct (for_ _ body _) as [cen s]. destruct HP as (Hl & Hs & Hrd). cbn [fst snd] in *.
  f_equal.
  - apply (list_eq_rd 0%Q); [done|]. intros p Hp. apply Hrd. lia.
  - rewrite Hs. rewrite Hlen, Nat2Z.id, drop_all. done.
Qed.

Lemma save_bytes (pq : ProductQuantizer G) (out : list Z) :
  save pq out =
  out ++ int32_bytes (dim_ pq) ++ int32_bytes (nsubq_ pq) ++ int32_bytes (dsub_ pq) ++
         int32_bytes (lastdsub_ pq) ++ concat (real_bytes <$> centroids_ pq).
Proof. unfold save. by rewrite <- !app_assoc. Qed.

Lemma wrap32_id (z : Z) : int32_range z → wrap32 z = z.
Proof.
  unfold int32_range, wrap32. intros Hz.
  change (2 ^ 31) with 2147483648 in *. change (2 ^ 32) with 4294967296.
  Z.div_mod_to_equations. lia.
Qed.

(** C4.  What [save] writes, [load] reads back, into the same or any
    other quantizer: the four shape fields and the table are those of
    the saved quantizer, value for value; the engine of the loading
    quantizer is left as it was, and the bytes after the quantizer's
    are left in the stream.  The saved quantizer is one the code can
    hold: its fields and its table size [dim_ * ksub_] are [int32_t]
    values. *)
Theorem load_save (pq pq0 : ProductQuantizer G) (out rest : list Z) :
  int32_range (dim_ pq) → int32_range (nsubq_ pq) →
  int32_range (dsub_ pq) → int32_range (lastdsub_ pq) →
  int32_range (dim_ pq * ksub_) →
  Z.of_nat (length (centroids_ pq)) = dim_ pq * ksub_ →
  (∀ q, length (real_bytes q) = sizeof_real) →
  Forall (fun q => bytes_real (real_bytes q) = q) (centroids_ pq) →
  save pq out = out ++ save pq [] ∧
  load pq0 {| in_bytes := save pq [] ++ rest; in_fail := false |} =
  Done ({| dim_ := dim_ pq; nsubq_ := nsubq_ pq; dsub_ := dsub_ pq;
           lastdsub_ := lastdsub_ pq; centroids_ := centroids_ pq; rng := rng pq0 |},
        {| in_bytes := rest; in_fail := false |}).
Proof.
  intros Hr1 Hr2 Hr3 Hr4 Hr5 Hlen Hsize Hround. split.
  - by rewrite !save_bytes.
  - rewrite load_unfold, save_bytes. rewrite app_nil_l, <- !app_assoc. cbv zeta.
    do 4 (rewrite read_int32_ok by done; cbn [fst snd]).
    rewrite wrap32_id by done.
    destruct (resize (centroids_ pq0) (dim_ pq * ksub_)) as [c| |] eqn:Er.
    + simpl. apply resize_length in Er.
      rewrite load_table_ok; [done| |done..]. lia.
    + unfold resize in Er. destruct (Z.ltb_spec (dim_ pq * ksub_) 0); [lia|done].
    + unfold resize in Er. by destruct (dim_ pq * ksub_ <? 0).
Qed.

Lemma read_int32_at (bs : list Z) (off : nat) (s : istream) (old : Z) :
  stream_at bs off s →
  (read_int32 s old).1 = bytes_int32 (read_over bs off (int32_bytes old)) ∧
  stream_at bs (off + 4) (read_int32 s old).2.
Proof.
  intros Hs. unfold read_int32.
  destruct (stream_read_at bs off s (int32_bytes old) Hs) as [Hv Hs'].
  destruct (stream_read s (int32_bytes old)) as [v s']. cbn [fst snd] in *.
  by rewrite Hv.
Qed.

(** The table loop of [load] from offset [off]: entry [j] is read at
    offset [off + sizeof_real * j] over the bytes of its old value. *)
Lemma load_table_at (bs : list Z) (off : nat) (cen : list Q) (s : istream) :
  (∀ q, length (real_bytes q) = sizeof_real) →
  stream_at bs off s →
  length (load_table cen s).1 = length cen ∧
  (∀ j, 0 ≤ j < Z.of_nat (length cen) →
     rdq (load_table cen s).1 j =
     bytes_real (read_over bs (off + sizeof_real * Z.to_nat j) (real_bytes (rdq cen j)))) ∧
  stream_at bs (off + sizeof_real * length cen) (load_table cen s).2.
Proof.
  intros Hsize Hs. unfold load_table.
  set (body := fun (i : Z) '(cen, s) => _).
  pose (P := fun (i : Z) (st : list Q * istream) =>
    length st.1 = length cen ∧
    (∀ j, 0 ≤ j < i →
       rdq st.1 j =
       bytes_real (read_over bs (off + sizeof_real * Z.to_nat j) (real_bytes (rdq cen j)))) ∧
    (∀ j, i ≤ j → rdq st.1 j = rdq cen j) ∧
    stream_at bs (off + sizeof_real * Z.to_nat i) st.2).
  assert (P (Z.of_nat (length cen)) (for_ (Z.of_nat (length cen)) body (cen, s))) as HP.
  { apply for_ind; [lia| |].
    - unfold P; cbn [fst snd]. split_and!; [done|intros; lia|done|].
      by replace (off + sizeof_real * Z.to_nat 0)%nat with off by lia.
    - intros i [c1 s1] Hi (Hl & Hd & Hu & Hs1). cbn [fst snd] in *. unfold body, P, read_real.
      destruct (stream_read_at bs _ s1 (real_bytes (rdq c1 i)) Hs1) as [Hv Hs2].
      destruct (stream_read s1 (real_bytes (rdq c1 i))) as [v s2]. cbn [fst snd] in *.
      subst v. split_and!.
      + by rewrite length_wr.
      + intros j Hj. unfold rdq at 1. destruct (decide (j = i)) as [->|Hne].
        * rewrite rd_wr_eq by lia. by rewrite (Hu i) by lia.
        * rewrite rd_wr_ne by done. apply Hd. lia.
      + intros j Hj. unfold rdq at 1. rewrite rd_wr_ne by lia. apply Hu. lia.
      + rewrite Hsize in Hs2.
        by replace (off + sizeof_real * Z.to_nat (i + 1))%nat
          with (off + sizeof_real * Z.to_nat i + sizeof_real)%nat by lia. }
  destruct (for_ _ body _) as [c1 s1]. destruct HP as (Hl & Hd & _ & Hs1). cbn [fst snd] in *.
  split_and!; [done|done|]. by rewrite Nat2Z.id in Hs1.
Qed.

(** C5 (as the code has it).  [load] checks nothing it reads.  Each of
    the four fields and of the table entries is read over the bytes it
    held: it takes the bytes the stream has at its offset and keeps its
    own for those the stream lacks, so a field or entry the stream does
    not reach keeps its value (zero for an entry the resize created).
    [load] throws only when [std::vector::resize] does, that is when
    the [int32_t] product of the [dim] it has read and [ksub_] is
    negative; otherwise it returns, with a table of that many entries
    (none when the product is zero), and the fail bit of the stream is
    set exactly when the stream held fewer bytes than the fields and
    the table take. *)
Theorem load_checks_nothing (pq : ProductQuantizer G) (bs : list Z) :
  (∀ q, length (real_bytes q) = sizeof_real) →
  let dim := bytes_int32 (read_over bs 0 (int32_bytes (dim_ pq))) in
  let nsubq := bytes_int32 (read_over bs 4 (int32_bytes (nsubq_ pq))) in
  let dsub := bytes_int32 (read_over bs 8 (int32_bytes (dsub_ pq))) in
  let lastdsub := bytes_int32 (read_over bs 12 (int32_bytes (lastdsub_ pq))) in
  let size := wrap32 (dim * ksub_) in
  let old := fun j : Z =>
    if bool_decide (j < Z.of_nat (length (centroids_ pq))) then rdq (centroids_ pq) j
    else 0%Q in
  (size < 0 → load pq {| in_bytes := bs; in_fail := false |} = Throw LengthError) ∧
  (0 ≤ size →
   ∃ pq' s', load pq {| in_bytes := bs; in_fail := false |} = Done (pq', s') ∧
     dim_ pq' = dim ∧ nsubq_ pq' = nsubq ∧ dsub_ pq' = dsub ∧ lastdsub_ pq' = lastdsub ∧
     rng pq' = rng pq ∧
     Z.of_nat (length (centroids_ pq')) = size ∧
     (∀ j, 0 ≤ j < size →
        rdq (centroids_ pq') j =
        bytes_real (read_over bs (16 + sizeof_real * Z.to_nat j) (real_bytes (old j)))) ∧
     (in_fail s' = true ↔ (length bs < 16 + sizeof_real * Z.to_nat size)%nat)) ∧
  (∀ off v, (length bs ≤ off)%nat → read_over bs off v = v) ∧
  (∀ off v, (off + length v ≤ length bs)%nat →
     read_over bs off v = take (length v) (drop off bs)).
Proof.
  intros Hsize dim nsubq dsub lastdsub size old.
  split; [|split; [|split; [apply read_over_none|apply read_over_all]]].
  - intros Hneg. rewrite load_unfold. cbv zeta.
    assert (stream_at bs 0 {| in_bytes := bs; in_fail := false |}) as Hs0
      by (split; [done|simpl; lia]).
    destruct (read_int32_at bs 0 _ (dim_ pq) Hs0) as [-> _].
    fold dim size. unfold resize. by destruct (Z.ltb_spec size 0); [|lia].
  - intros Hpos. rewrite load_unfold. cbv zeta.
    assert (stream_at bs 0 {| in_bytes := bs; in_fail := false |}) as Hs0
      by (split; [done|simpl; lia]).
    destruct (read_int32_at bs 0 _ (dim_ pq) Hs0) as [-> Hs1].
    destruct (read_int32_at bs 4 _ (nsubq_ pq) Hs1) as [-> Hs2].
    destruct (read_int32_at bs 8 _ (dsub_ pq) Hs2) as [-> Hs3].
    destruct (read_int32_at bs 12 _ (lastdsub_ pq) Hs3) as [-> Hs4].
    fold dim nsubq dsub lastdsub size.
    destruct (resize (centroids_ pq) size) as [c| |] eqn:Er;
      [|unfold resize in Er; destruct (Z.ltb_spec size 0); [lia|done]
       |unfold resize in Er; by destruct (size <? 0)].
    rewrite bind_Done.
    pose proof (resize_length _ _ _ Er) as Hlc.
    destruct (load_table_at bs 16 c _ Hsize Hs4) as (Hl & Hd & Hs5).
    eexists _, _. split; [reflexivity|]. cbn [dim_ nsubq_ dsub_ lastdsub_ rng centroids_].
    do 5 (split; [done|]). split; [by rewrite Hl|]. split.
    + intros j Hj. rewrite Hd by lia. by rewrite (resize_rd _ _ _ j Er) by done.
    + unfold stream_at in Hs5. rewrite <- Hlc, Nat2Z.id.
      destruct (in_fail _); split; intros; try done; lia.
Qed.

End Persistence.

Lemma byte_repr_size (q : Q) :
  length (real_bytes (RealRepr := byte_repr) q) = sizeof_real (RealRepr := byte_repr).
Proof. reflexivity. Qed.

Lemma byte_repr_roundtrip (v : Z) :
  0 ≤ v < 256 →
  bytes_real (RealRepr := byte_repr) (real_bytes (RealRepr := byte_repr) (inject_Z v))
  = inject_Z v.
Proof.
  intros Hv. unfold bytes_real, real_bytes, byte_repr.
  rewrite Qfloor_Z, Z.mod_small by done. reflexivity.
Qed.

Lemma test_pq_representable :
  Forall (fun q => bytes_real (RealRepr := byte_repr) (real_bytes (RealRepr := byte_repr) q) = q)
    (centroids_ test_pq).
Proof.
  unfold test_pq, centroids_. apply Forall_fmap, Forall_forall. intros p _. simpl.
  apply byte_repr_roundtrip. pose proof (Z.mod_pos_bound p 7 ltac:(lia)). lia.
Qed.

Lemma load_save_witness :
  int32_range (dim_ test_pq) ∧ int32_range (nsubq_ test_pq) ∧
  int32_range (dsub_ test_pq) ∧ int32_range (lastdsub_ test_pq) ∧
  int32_range (dim_ test_pq * ksub_) ∧
  Z.of_nat (length (centroids_ test_pq)) = dim_ test_pq * ksub_ ∧
  load (H1 := byte_repr) (ProductQuantizer_ctor (G := Z) (H0 := test_consts) 1 1)
    {| in_bytes := save (H1 := byte_repr) test_pq [] ++ [7; 7]; in_fail := false |} =
  Done ({| dim_ := dim_ test_pq; nsubq_ := nsubq_ test_pq; dsub_ := dsub_ test_pq;
           lastdsub_ := lastdsub_ test_pq; centroids_ := centroids_ test_pq;
           rng := rng (ProductQuantizer_ctor (G := Z) (H0 := test_consts) 1 1) |},
        {| in_bytes := [7; 7]; in_fail := false |}).
Proof.
  assert (int32_range (dim_ test_pq)) as H1 by (unfold int32_range; simpl; lia).
  assert (int32_range (nsubq_ test_pq)) as H2 by (unfold int32_range; simpl; lia).
  assert (int32_range (dsub_ test_pq)) as H3 by (unfold int32_range; simpl; lia).
  assert (int32_range (lastdsub_ test_pq)) as H4 by (unfold int32_range; simpl; lia).
  assert (int32_range (dim_ test_pq * ksub_)) as H5
    by (unfold int32_range, ksub_; simpl; lia).
  assert (Z.of_nat (length (centroids_ test_pq)) = dim_ test_pq * ksub_) as H6
    by reflexivity.
  repeat (split; [assumption|]).
  apply (load_save (H1 := byte_repr) test_pq
           (ProductQuantizer_ctor (G := Z) (H0 := test_consts) 1 1) [] [7; 7]
           H1 H2 H3 H4 H5 H6 byte_repr_size test_pq_representable).
Defined.

Lemma load_checks_nothing_witness :
  (∀ q, length (real_bytes (RealRepr := byte_repr) q) = sizeof_real (RealRepr := byte_repr)) ∧
  ∃ pq' s', load (H1 := byte_repr) test_pq {| in_bytes := [2; 0]; in_fail := false |}
            = Done (pq', s') ∧
    dim_ pq' = 2 ∧ nsubq_ pq' = nsubq_ test_pq ∧
    Z.of_nat (length (centroids_ pq')) = 512 ∧ in_fail s' = true.
Proof.
  split; [exact byte_repr_size|].
  destruct (load_checks_nothing (H1 := byte_repr) test_pq [2; 0] byte_repr_size)
    as (_ & Hret & _).
  destruct Hret as (pq' & s' & Hload & Hdim & Hq & _ & _ & _ & Hlen & _ & Hfail);
    [vm_compute; discriminate|].
  exists pq', s'. split; [exact Hload|].
  split; [exact Hdim|]. split; [exact Hq|]. split; [exact Hlen|].
  apply Hfail. vm_compute. lia.
Defined.

(** From an empty stream [load] returns the quantizer unchanged and
    reports nothing; from sixteen zero bytes it returns a quantizer of
    dimension zero with an empty table and reports nothing. *)
Lemma load_short_stream_silent :
  load (H1 := byte_repr) test_pq {| in_bytes := []; in_fail := false |} =
    Done (test_pq, {| in_bytes := []; in_fail := true |}) ∧
  load (H1 := byte_repr) test_pq {| in_bytes := replicate 16 0; in_fail := false |} =
    Done ({| dim_ := 0; nsubq_ := 0; dsub_ := 0; lastdsub_ := 0; centroids_ := [];
             rng := 1234 |},
          {| in_bytes := []; in_fail := false |}).
Proof. split; vm_compute; reflexivity. Qed.

(** * Further properties of the code *)

(** ** Squared distance *)

Lemma Qsquare_nonneg (a : Q) : (0 <= a * a)%Q.
Proof. nra. Qed.

Lemma Qsquare_zero (a : Q) : (a * a == 0)%Q → (a == 0)%Q.
Proof. intros Ha. destruct (Qmult_integral _ _ Ha); done. Qed.

Section Distance.
Context {G : Type} `{Rng G} `{Consts}.

Lemma distL2_succ (x : list Q) (xo : Z) (y : list Q) (yo : Z) (d : Z) :
  0 ≤ d →
  distL2 x xo y yo (d + 1) =
  (distL2 x xo y yo d +
   (rdq x (xo + d) - rdq y (yo + d)) * (rdq x (xo + d) - rdq y (yo + d)))%Q.
Proof. intros Hd. unfold distL2. by rewrite for_succ. Qed.

Lemma distL2_nonneg (x : list Q) (xo : Z) (y : list Q) (yo : Z) (d : Z) :
  (0 <= distL2 x xo y yo d)%Q.
Proof.
  unfold distL2. apply (for_inv (fun dist => (0 <= dist)%Q)); [apply Qle_refl|].
  intros i dist _ Hd. simpl.
  pose proof (Qsquare_nonneg (rdq x (xo + i) - rdq y (yo + i))). lra.
Qed.

(** The distance is a function of the coordinates read. *)
Lemma distL2_ext (x : list Q) (xo : Z) (y y' : list Q) (yo yo' : Z) (d : Z) :
  (∀ i, 0 ≤ i < d → rdq y (yo + i) = rdq y' (yo' + i)) →
  distL2 x xo y yo d = distL2 x xo y' yo' d.
Proof.
  intros Hy. destruct (decide (0 ≤ d)) as [Hd|Hd];
    [|unfold distL2; by rewrite !for_neg by lia].
  revert Hy. pattern d. apply natlike_ind; [| |done].
  - intros _. unfold distL2. by rewrite !for_neg by lia.
  - intros n Hn IH Hy. unfold Z.succ. rewrite !distL2_succ by done.
    rewrite IH by (intros i Hi; apply Hy; lia). rewrite (Hy n) by lia. done.
Qed.

(** X1.  [distL2] is never negative, does not depend on the order of
    its two vectors, and is zero exactly when the two slices agree on
    all [d] coordinates. *)
Theorem distL2_separates (x : list Q) (xo : Z) (y : list Q) (yo : Z) (d : Z) :
  (0 <= distL2 x xo y yo d)%Q ∧
  (distL2 x xo y yo d == distL2 y yo x xo d)%Q ∧
  ((distL2 x xo y yo d == 0)%Q ↔ ∀ i, 0 ≤ i < d → (rdq x (xo + i) == rdq y (yo + i))%Q).
Proof.
  split; [apply distL2_nonneg|].
  destruct (decide (0 ≤ d)) as [Hd|Hd].
  - pattern d. apply natlike_ind; [| |done].
    + unfold distL2. rewrite !for_neg by lia. split; [reflexivity|].
      split; [intros _ i Hi; lia|reflexivity].
    + intros n Hn [IHs IHz]. unfold Z.succ. rewrite !distL2_succ by done.
      pose proof (distL2_nonneg x xo y yo n) as Hpos.
      pose proof (Qsquare_nonneg (rdq x (xo + n) - rdq y (yo + n))) as Hsq.
      split; [rewrite IHs; ring|]. split.
      * intros Hz0 i Hi.
        assert (distL2 x xo y yo n == 0)%Q as Hn0 by lra.
        assert ((rdq x (xo + n) - rdq y (yo + n)) * (rdq x (xo + n) - rdq y (yo + n)) == 0)%Q
          as Hl by lra.
        destruct (decide (i = n)) as [->|Hne].
        -- apply Qsquare_zero in Hl. lra.
        -- apply IHz; [done|lia].
      * intros Heq.
        assert (distL2 x xo y yo n == 0)%Q as Hn0 by (apply IHz; intros i Hi; apply Heq; lia).
        specialize (Heq n ltac:(lia)). rewrite Hn0, Heq. ring.
  - unfold distL2. rewrite !for_neg by lia. split; [reflexivity|].
    split; [intros _ i Hi; lia|reflexivity].
Qed.

(** ** Assignment of one point and of many *)

(** X2.  [assign_centroid] returns the distance to the centroid whose
    index it stores, which is the least of the [ksub_] distances and not
    negative; it writes the one cell [code[0]] and no other. *)
Theorem assign_centroid_returns_least (x : list Q) (xo : Z) (cb : list Q) (c0 : Z)
    (code : list Z) (co : Z) (d : Z) :
  0 ≤ co < Z.of_nat (length code) →
  let r := assign_centroid x xo cb c0 code co d in
  r.1 = cand_dist x xo cb c0 d (rdz r.2 co) ∧
  0 ≤ rdz r.2 co < ksub_ ∧
  (∀ i, 0 ≤ i < ksub_ → (r.1 <= cand_dist x xo cb c0 d i)%Q) ∧
  (0 <= r.1)%Q ∧
  length r.2 = length code ∧
  (∀ p, p ≠ co → rdz r.2 p = rdz code p).
Proof.
  intros Hco r. unfold r.
  destruct (assign_centroid_spec x xo cb c0 code co d) as (b & (Hb & Hmin & _) & ->).
  cbn [fst snd]. rewrite rdz_wr_eq by done.
  split; [done|]. split; [done|]. split; [done|].
  split; [apply distL2_nonneg|]. split; [apply length_wr|].
  intros p Hp. by apply rdz_wr_ne.
Qed.

Lemma Estep_writes (x : list Q) (xo : Z) (centroids : list Q) (c0 : Z)
    (codes : list Z) (co : Z) (d n : Z) :
  Estep x xo centroids c0 codes co d n =
  for_ n (fun i c => wr c (co + i) (assign_index x (xo + i * d) centroids c0 d)) codes.
Proof.
  unfold Estep.
  unfold for_, for_range. generalize (Z.to_nat (n - 0)) as cnt.
  induction cnt as [|c IH]; [done|]. simpl. rewrite IH. apply assign_centroid_code.
Qed.

(** X3.  After [Estep] the code of every point [i < n] is the first
    index at which the distance from the point to the centroids is
    least; the buffer keeps its length and its cells outside
    [co .. co + n) are as before. *)
Theorem Estep_assigns_nearest (x : list Q) (xo : Z) (centroids : list Q) (c0 : Z)
    (codes : list Z) (co : Z) (d n : Z) :
  0 ≤ co → co + n ≤ Z.of_nat (length codes) →
  let codes' := Estep x xo centroids c0 codes co d n in
  (∀ i, 0 ≤ i < n →
     first_nearest (cand_dist x (xo + i * d) centroids c0 d) (rdz codes' (co + i))) ∧
  length codes' = length codes ∧
  (∀ p, ¬ (co ≤ p < co + n) → rdz codes' p = rdz codes p).
Proof.
  intros Hco Hlen codes'. unfold codes'. rewrite Estep_writes. split_and!.
  - intros i Hi. unfold rdz. rewrite store_loop_rd by lia.
    rewrite bool_decide_eq_true_2 by lia.
    replace (co + i - co) with i by lia. apply assign_index_spec.
  - apply store_loop_length.
  - intros p Hp. unfold rdz. destruct (decide (0 ≤ n)) as [Hn|Hn].
    + rewrite store_loop_rd by done. rewrite bool_decide_eq_false_2; [done|lia].
    + by rewrite for_neg by lia.
Qed.

(** X4.  [compute_codes] stores, for every vector [i < n] and subspace
    [m], at position [i * nsubq_ + m] the byte [compute_code] stores for
    that vector: the first nearest centroid of its [m]-th slice; the
    buffer keeps its length and its other cells. *)
Theorem compute_codes_stride (pq : ProductQuantizer G) (x : list Q) (xo : Z)
    (codes : list Z) (co n : Z) :
  0 ≤ co → 0 ≤ nsubq_ pq → 0 ≤ n → co + n * nsubq_ pq ≤ Z.of_nat (length codes) →
  let codes' := compute_codes pq x xo codes co n in
  (∀ i m, 0 ≤ i < n → 0 ≤ m < nsubq_ pq →
     rdz codes' (co + i * nsubq_ pq + m) = subspace_code pq x (xo + i * dim_ pq) m ∧
     first_nearest (subspace_dist pq x (xo + i * dim_ pq) m)
       (rdz codes' (co + i * nsubq_ pq + m))) ∧
  length codes' = length codes ∧
  (∀ p, ¬ (co ≤ p < co + n * nsubq_ pq) → rdz codes' p = rdz codes p).
Proof.
  intros Hco Hq Hn Hlen codes'. unfold codes', compute_codes.
  pose (P := fun (i : Z) (r : list Z) =>
    length r = length codes ∧
    (∀ i' m, 0 ≤ i' < i → 0 ≤ m < nsubq_ pq →
       rdz r (co + i' * nsubq_ pq + m) = subspace_code pq x (xo + i' * dim_ pq) m) ∧
    (∀ p, ¬ (co ≤ p < co + i * nsubq_ pq) → rdz r p = rdz codes p)).
  assert (P n (for_ n (fun i codes =>
    compute_code pq x (xo + i * dim_ pq) codes (co + i * nsubq_ pq)) codes)) as (Hl & Hc & Hf).
  { apply for_ind; [done| |].
    - split_and!; [done|intros; lia|done].
    - intros i r Hi (Hl & Hc & Hf). rewrite compute_code_writes.
      assert (i * nsubq_ pq + nsubq_ pq ≤ n * nsubq_ pq) by nia.
      split_and!.
      + by rewrite store_loop_length.
      + intros i' m Hi' Hm. unfold rdz. rewrite store_loop_rd by done.
        destruct (decide (i' = i)) as [->|Hne].
        * rewrite bool_decide_eq_true_2 by lia. f_equal. lia.
        * assert (i' * nsubq_ pq + nsubq_ pq ≤ i * nsubq_ pq) by nia.
          rewrite bool_decide_eq_false_2 by lia. apply Hc; lia.
      + intros p Hp. unfold rdz. rewrite store_loop_rd by done.
        rewrite bool_decide_eq_false_2 by lia. apply Hf. lia. }
  split_and!; [|done|done].
  intros i m Hi Hm. rewrite Hc by done. split; [done|]. apply subspace_code_spec.
Qed.

End Distance.

(** ** Loops that rewrite a run of cells *)

Lemma modify_loop_rd (d b : Z) (g : Z → Q → Q) (cen : list Q) (p : Z) :
  0 ≤ d →
  rdq (for_ d (fun j cen => wr cen (b + j) (g j (rdq cen (b + j)))) cen) p =
  if bool_decide (b ≤ p < b + d ∧ 0 ≤ p < Z.of_nat (length cen))
  then g (p - b) (rdq cen p) else rdq cen p.
Proof.
  intros Hd.
  pose (P := fun (i : Z) (r : list Q) =>
    length r = length cen ∧
    rdq r p = if bool_decide (b ≤ p < b + i ∧ 0 ≤ p < Z.of_nat (length cen))
              then g (p - b) (rdq cen p) else rdq cen p).
  enough (P d (for_ d (fun j cen => wr cen (b + j) (g j (rdq cen (b + j)))) cen))
    as [_ HP] by exact HP.
  apply for_ind; unfold P; [done| |].
  - split; [done|]. rewrite bool_decide_eq_false_2; [done|lia].
  - intros i r Hi [Hl Hr]. split; [by rewrite length_wr|].
    destruct (decide (b + i = p)) as [<-|Hne].
    + rewrite bool_decide_eq_false_2 in Hr by lia.
      destruct (decide (0 ≤ b + i < Z.of_nat (length cen))) as [Hin|Hout].
      * unfold rdq at 1. rewrite rd_wr_eq by lia.
        rewrite bool_decide_eq_true_2 by lia. rewrite Hr. f_equal. lia.
      * rewrite wr_out by lia. rewrite bool_decide_eq_false_2 by lia. done.
    + unfold rdq at 1. rewrite rd_wr_ne by done. fold (rdq r p). rewrite Hr.
      repeat case_bool_decide; try done; lia.
Qed.

Lemma modify_loop_length (d b : Z) (g : Z → Q → Q) (cen : list Q) :
  length (for_ d (fun j cen => wr cen (b + j) (g j (rdq cen (b + j)))) cen) = length cen.
Proof.
  apply (for_inv (fun r => length r = length cen)); [done|].
  intros i r _ Hr. by rewrite length_wr.
Qed.

(** ** Sums over ranges *)

Lemma qsum_0 (f : Z → Q) : qsum 0 f = 0%Q.
Proof. unfold qsum. by rewrite for_neg. Qed.

Lemma qsum_ext (n : Z) (f g : Z → Q) :
  (∀ i, 0 ≤ i < n → (f i == g i)%Q) → (qsum n f == qsum n g)%Q.
Proof.
  intros Hfg. destruct (decide (0 ≤ n)) as [Hn|Hn];
    [|unfold qsum; rewrite !for_neg by lia; reflexivity].
  revert Hfg. pattern n. apply natlike_ind; [| |done].
  - intros _. rewrite !qsum_0. reflexivity.
  - intros k Hk IH Hfg. unfold Z.succ. rewrite !qsum_succ by done.
    rewrite IH by (intros i Hi; apply Hfg; lia). rewrite (Hfg k) by lia. reflexivity.
Qed.

Lemma qsum_split (a b : Z) (f : Z → Q) :
  0 ≤ a → 0 ≤ b → (qsum (a + b) f == qsum a f + qsum b (fun n => f (a + n)%Z))%Q.
Proof.
  intros Ha Hb. pattern b. apply natlike_ind; [| |done].
  - rewrite Z.add_0_r, qsum_0. ring.
  - intros k Hk IH. unfold Z.succ. rewrite Z.add_assoc.
    rewrite !qsum_succ by lia. rewrite IH. ring.
Qed.

Lemma qsum_plus (n : Z) (f g : Z → Q) :
  (qsum n (fun i => f i + g i) == qsum n f + qsum n g)%Q.
Proof.
  destruct (decide (0 ≤ n)) as [Hn|Hn];
    [|unfold qsum; rewrite !for_neg by lia; ring].
  pattern n. apply natlike_ind; [| |done].
  - rewrite !qsum_0. ring.
  - intros k Hk IH. unfold Z.succ. rewrite !qsum_succ by done. rewrite IH. ring.
Qed.

Lemma qsum_scale (n : Z) (c : Q) (f : Z → Q) :
  (qsum n (fun i => c * f i) == c * qsum n f)%Q.
Proof.
  destruct (decide (0 ≤ n)) as [Hn|Hn];
    [|unfold qsum; rewrite !for_neg by lia; ring].
  pattern n. apply natlike_ind; [| |done].
  - rewrite !qsum_0. ring.
  - intros k Hk IH. unfold Z.succ. rewrite !qsum_succ by done. rewrite IH. ring.
Qed.

(** ** Arithmetic on codes: [addcode] and [mulcode] *)

Section Codes.
Context {G : Type} `{Rng G} `{Consts}.

(** A sum over the coordinates, subspace by subspace. *)
Lemma qsum_by_subspace (pq : ProductQuantizer G) (g : Z → Q) :
  1 ≤ nsubq_ pq → 0 < dsub_ pq → 0 < lastdsub_ pq ≤ dsub_ pq →
  (qsum ((nsubq_ pq - 1) * dsub_ pq + lastdsub_ pq) g ==
   qsum (nsubq_ pq) (fun m => qsum (width pq m) (fun n => g (m * dsub_ pq + n)%Z)))%Q.
Proof.
  intros Hq Hw Hl.
  assert (∀ m, 0 ≤ m → m ≤ nsubq_ pq - 1 →
    (qsum (m * dsub_ pq) g ==
     qsum m (fun m' => qsum (width pq m') (fun n => g (m' * dsub_ pq + n)%Z)))%Q) as Hfull.
  { intros m Hm. pattern m. apply natlike_ind; [| |done].
    - intros _. rewrite Z.mul_0_l, !qsum_0. reflexivity.
    - intros k Hk IH Hle. unfold Z.succ. rewrite qsum_succ by done.
      rewrite <- IH by lia.
      replace ((k + 1) * dsub_ pq) with (k * dsub_ pq + dsub_ pq) by lia.
      rewrite qsum_split by nia. unfold width.
      destruct (Z.eqb_spec k (nsubq_ pq - 1)); [lia|]. reflexivity. }
  replace (nsubq_ pq) with (nsubq_ pq - 1 + 1) at 2 by lia.
  rewrite qsum_succ by lia. rewrite <- Hfull by lia.
  rewrite qsum_split by nia. unfold width at 1. rewrite Z.eqb_refl. reflexivity.
Qed.

Lemma coordinate_cell (pq : ProductQuantizer G) (p : Z) :
  1 ≤ nsubq_ pq → 0 < dsub_ pq → 0 < lastdsub_ pq ≤ dsub_ pq →
  0 ≤ p < (nsubq_ pq - 1) * dsub_ pq + lastdsub_ pq →
  ∃ m n, 0 ≤ m < nsubq_ pq ∧ 0 ≤ n < width pq m ∧ p = m * dsub_ pq + n.
Proof.
  intros Hq Hw Hl Hp.
  pose proof (Z.div_mod p (dsub_ pq) ltac:(lia)) as Hdm.
  pose proof (Z.mod_pos_bound p (dsub_ pq) Hw) as Hmb.
  assert (0 ≤ p / dsub_ pq) as Hd0 by (apply Z.div_pos; lia).
  assert (p / dsub_ pq ≤ nsubq_ pq - 1) as Hd1 by nia.
  exists (p / dsub_ pq), (p mod dsub_ pq). split; [lia|]. split; [|lia].
  unfold width. destruct (Z.eqb_spec (p / dsub_ pq) (nsubq_ pq - 1)) as [E|E]; [|lia].
  rewrite E in Hdm. lia.
Qed.

(** What [addcode] leaves in every cell. *)
Lemma addcode_cells (pq : ProductQuantizer G) (x : list Q) (codes : list Z) (co t : Z)
    (alpha : Q) :
  1 ≤ nsubq_ pq → 0 < dsub_ pq → 0 < lastdsub_ pq ≤ dsub_ pq →
  (nsubq_ pq - 1) * dsub_ pq + lastdsub_ pq ≤ Z.of_nat (length x) →
  let x' := addcode pq x codes co t alpha in
  length x' = length x ∧
  (∀ m n, 0 ≤ m < nsubq_ pq → 0 ≤ n < width pq m →
     rdq x' (m * dsub_ pq + n) =
     (rdq x (m * dsub_ pq + n) + alpha * code_coord pq codes co t m n)%Q) ∧
  (∀ p, ¬ (0 ≤ p < (nsubq_ pq - 1) * dsub_ pq + lastdsub_ pq) → rdq x' p = rdq x p).
Proof.
  intros Hq Hw Hl Hlen x'. unfold x', addcode.
  set (body := fun (m : Z) '(x, d) => _).
  pose (P := fun (m : Z) (s : list Q * Z) =>
    (m < nsubq_ pq → s.2 = dsub_ pq) ∧
    length s.1 = length x ∧
    (∀ m' n, 0 ≤ m' < m → 0 ≤ n < width pq m' →
       rdq s.1 (m' * dsub_ pq + n) =
       (rdq x (m' * dsub_ pq + n) + alpha * code_coord pq codes co t m' n)%Q) ∧
    (∀ p, ¬ (0 ≤ p < m * dsub_ pq) → rdq s.1 p = rdq x p) ∧
    (∀ p, (nsubq_ pq - 1) * dsub_ pq + lastdsub_ pq ≤ p → rdq s.1 p = rdq x p)).
  assert (P (nsubq_ pq) (for_ (nsubq_ pq) body (x, dsub_ pq))) as (_ & Hl' & Hc & Hf & Hg).
  { apply for_ind; [lia| |].
    - unfold P; cbn [fst snd]. split_and!; try done. intros; lia.
    - intros m [r d] Hm (Hd & Hlr & Hc & Hf & Hg). cbn [fst snd] in *.
      unfold body, P; cbn [fst snd]. rewrite Hd by lia.
      assert ((if m =? nsubq_ pq - 1 then lastdsub_ pq else dsub_ pq) = width pq m) as -> by done.
      assert (0 < width pq m ≤ dsub_ pq) as Hwm.
      { unfold width. destruct (m =? nsubq_ pq - 1); lia. }
      assert (m * dsub_ pq + width pq m ≤ (nsubq_ pq - 1) * dsub_ pq + lastdsub_ pq) as Hend.
      { unfold width. destruct (Z.eqb_spec m (nsubq_ pq - 1)) as [->|?]; [lia|nia]. }
      set (g := fun (n : Z) (v : Q) =>
        (v + alpha * rdq (centroids_ pq)
               (get_centroids_const pq m (rdb codes (co + nsubq_ pq * t + m)) + n))%Q).
      change (for_ (width pq m) _ r) with
        (for_ (width pq m) (fun n x0 => wr x0 (m * dsub_ pq + n)
                              (g n (rdq x0 (m * dsub_ pq + n)))) r).
      split_and!.
      + intros Hlt. unfold width. destruct (Z.eqb_spec m (nsubq_ pq - 1)); [lia|done].
      + by rewrite modify_loop_length.
      + intros m' n Hm' Hn. rewrite modify_loop_rd by lia.
        destruct (decide (m' = m)) as [->|Hne].
        * rewrite bool_decide_eq_true_2 by lia.
          unfold g, code_coord. rewrite Hf by lia. do 3 f_equal. lia.
        * assert (0 < width pq m' ≤ dsub_ pq).
          { unfold width. destruct (m' =? nsubq_ pq - 1); lia. }
          rewrite bool_decide_eq_false_2 by nia. apply Hc; [lia|done].
      + intros p Hp. rewrite modify_loop_rd by lia.
        rewrite bool_decide_eq_false_2 by lia. apply Hf. lia.
      + intros p Hp. rewrite modify_loop_rd by lia.
        rewrite bool_decide_eq_false_2 by lia. by apply Hg. }
  destruct (for_ (nsubq_ pq) body (x, dsub_ pq)) as [r d]. cbn [fst snd] in *.
  split_and!; [done|done|].
  intros p Hp. destruct (decide (p < 0)); [apply Hf; lia|apply Hg; lia].
Qed.

(** X5.  On a quantizer of regular shape and a vector that holds its
    coordinates, [addcode] adds to coordinate [n] of slice [m]
    [alpha] times the coordinate [n] of the centroid that byte [m] of
    code [t] selects, once; it changes nothing beyond the last
    coordinate and keeps the length. *)
Theorem addcode_adds_scaled_centroid (pq : ProductQuantizer G) (x : list Q)
    (codes : list Z) (co t : Z) (alpha : Q) :
  1 ≤ nsubq_ pq → 0 < dsub_ pq → 0 < lastdsub_ pq ≤ dsub_ pq →
  (nsubq_ pq - 1) * dsub_ pq + lastdsub_ pq ≤ Z.of_nat (length x) →
  let x' := addcode pq x codes co t alpha in
  length x' = length x ∧
  (∀ m n, 0 ≤ m < nsubq_ pq → 0 ≤ n < width pq m →
     rdq x' (m * dsub_ pq + n) =
     (rdq x (m * dsub_ pq + n) +
      alpha * rdq (centroids_ pq)
                (get_centroids_const pq m (rdb codes (co + nsubq_ pq * t + m)) + n))%Q) ∧
  (∀ p, ¬ (0 ≤ p < (nsubq_ pq - 1) * dsub_ pq + lastdsub_ pq) → rdq x' p = rdq x p).
Proof.
  intros Hq Hw Hl Hlen x'.
  destruct (addcode_cells pq x codes co t alpha Hq Hw Hl Hlen) as (Hlx & Hc & Hf).
  unfold x'. split; [exact Hlx|]. split; [|exact Hf].
  intros m n Hm Hn. rewrite (Hc m n Hm Hn). reflexivity.
Qed.

Lemma mulcode_by_subspace (pq : ProductQuantizer G) (x : list Q) (codes : list Z)
    (co : Z) (t : Z) (alpha : Q) :
  (mulcode pq x codes co t alpha ==
   alpha * qsum (nsubq_ pq) (fun m => qsum (width pq m) (fun n =>
     rdq x (m * dsub_ pq + n) * code_coord pq codes co t m n)))%Q.
Proof.
  unfold mulcode.
  set (f := fun m => qsum (width pq m) (fun n =>
     rdq x (m * dsub_ pq + n) * code_coord pq codes co t m n)%Q).
  set (body := fun (m : Z) '(res, d) => _).
  destruct (decide (0 ≤ nsubq_ pq)) as [Hn|Hn].
  - pose (P := fun (m : Z) (s : Q * Z) =>
      (m < nsubq_ pq → s.2 = dsub_ pq) ∧ (s.1 == qsum m f)%Q).
    assert (P (nsubq_ pq) (for_ (nsubq_ pq) body (0%Q, dsub_ pq))) as [_ HP].
    { apply for_ind; [done|by split|].
      intros m [res d] Hm [Hd Hres]. cbn [fst snd] in Hd, Hres. unfold body.
      split; cbn [fst snd].
      - intros Hlt. destruct (Z.eqb_spec m (nsubq_ pq - 1)); [lia|]. apply Hd. lia.
      - rewrite for_accumulate, qsum_succ by lia. rewrite Hres.
        apply Qplus_comp; [reflexivity|]. unfold f, width, code_coord.
        rewrite Hd by lia. by destruct (m =? nsubq_ pq - 1). }
    destruct (for_ (nsubq_ pq) body (0%Q, dsub_ pq)) as [res d]. cbn [fst snd] in HP.
    rewrite HP. ring.
  - rewrite for_neg by lia. unfold qsum. rewrite for_neg by lia. ring.
Qed.

(** X6.  [mulcode] is the dot product with what [addcode] adds: the dot
    product of [x] with a vector to which code [t] was added at scale
    [alpha] is the dot product with the vector before plus
    [mulcode x t alpha]. *)
Theorem dot_addcode_mulcode (pq : ProductQuantizer G) (x y : list Q) (codes : list Z)
    (co t : Z) (alpha : Q) :
  well_shaped pq → dim_ pq ≤ Z.of_nat (length y) →
  (dot (dim_ pq) x (addcode pq y codes co t alpha) ==
   dot (dim_ pq) x y + mulcode pq x codes co t alpha)%Q.
Proof.
  intros (Hq & Hw & Hl & Hdim & _) Hlen.
  destruct (addcode_cells pq y codes co t alpha Hq Hw Hl ltac:(lia)) as (_ & Hc & _).
  rewrite mulcode_by_subspace. unfold dot. rewrite <- Hdim.
  rewrite !qsum_by_subspace by done.
  rewrite <- qsum_scale, <- qsum_plus. apply qsum_ext. intros m Hm.
  rewrite <- qsum_scale, <- qsum_plus. apply qsum_ext. intros n Hn.
  rewrite Hc by done. ring.
Qed.

(** X7.  Adding a code at scale [a] and then at scale [b] is adding it
    once at scale [a + b], cell by cell. *)
Theorem addcode_twice (pq : ProductQuantizer G) (x : list Q) (codes : list Z)
    (co t : Z) (a b : Q) :
  well_shaped pq → dim_ pq ≤ Z.of_nat (length x) →
  length (addcode pq (addcode pq x codes co t a) codes co t b) =
    length (addcode pq x codes co t (a + b)) ∧
  ∀ p, (rdq (addcode pq (addcode pq x codes co t a) codes co t b) p ==
        rdq (addcode pq x codes co t (a + b)) p)%Q.
Proof.
  intros (Hq & Hw & Hl & Hdim & _) Hlen.
  destruct (addcode_cells pq x codes co t a Hq Hw Hl ltac:(lia)) as (Hla & Hca & Hfa).
  destruct (addcode_cells pq x codes co t (a + b) Hq Hw Hl ltac:(lia)) as (Hls & Hcs & Hfs).
  destruct (addcode_cells pq (addcode pq x codes co t a) codes co t b Hq Hw Hl
              ltac:(rewrite Hla; lia)) as (Hlb & Hcb & Hfb).
  split; [congruence|]. intros p.
  destruct (decide (0 ≤ p < (nsubq_ pq - 1) * dsub_ pq + lastdsub_ pq)) as [Hp|Hp].
  - destruct (coordinate_cell pq p Hq Hw Hl Hp) as (m & n & Hm & Hn & ->).
    rewrite Hcb, Hca, Hcs by done. ring.
  - rewrite Hfb, Hfa, Hfs by done. reflexivity.
Qed.

End Codes.

(** ** The M-step computes means *)

Lemma zsum_0 (f : Z → Z) : zsum 0 f = 0.
Proof. unfold zsum. by rewrite for_neg. Qed.

Lemma inject_Z_nonzero (c : Z) : Qeq_bool (inject_Z c) 0 = false ↔ c ≠ 0.
Proof.
  split.
  - intros E ->. done.
  - intros Hc. destruct (Qeq_bool (inject_Z c) 0) eqn:E; [|done].
    apply Qeq_bool_iff in E. unfold Qeq in E. simpl in E. lia.
Qed.

(** The inner loop of the means is, for a nonzero divisor, the plain
    division of the cells. *)
Lemma means_inner_loop (d c : Z) (z : Q) (cen : list Q) :
  Qeq_bool z 0 = false →
  for_M d (fun j cen1 => q ← real_div (rdq cen1 (c + j)) z; mret (wr cen1 (c + j) q)) cen =
  Done (for_ d (fun j cen1 => wr cen1 (c + j) (rdq cen1 (c + j) / z)%Q) cen).
Proof.
  intros Hz. destruct (decide (0 ≤ d)) as [Hd|Hd];
    [|by rewrite for_M_neg, for_neg by lia].
  pattern d. apply natlike_ind; [| |done].
  - by rewrite for_M_neg, for_neg by lia.
  - intros k Hk IH. unfold Z.succ. rewrite for_M_succ, for_succ by done.
    rewrite IH, bind_Done. unfold real_div. rewrite Hz. reflexivity.
Qed.

Section MeansOfAssigned.
Context {G : Type} `{Rng G} `{Consts}.

Lemma assigned_count_succ (codes : list Z) (co n k : Z) :
  0 ≤ n →
  assigned_count codes co (n + 1) k =
  assigned_count codes co n k + (if rdb codes (co + n) =? k then 1 else 0).
Proof. intros Hn. unfold assigned_count. by rewrite zsum_succ. Qed.

Lemma assigned_sum_succ (x0 : list Q) (xo : Z) (codes : list Z) (co d n k j : Z) :
  0 ≤ n →
  assigned_sum x0 xo codes co d (n + 1) k j =
  (assigned_sum x0 xo codes co d n k j +
   (if rdb codes (co + n) =? k then rdq x0 (xo + n * d + j) else 0))%Q.
Proof. intros Hn. unfold assigned_sum. by rewrite qsum_succ. Qed.

Lemma block_cell_in_range (c0 d k j : Z) (len : Z) :
  0 ≤ c0 → c0 + ksub_ * d ≤ len → 0 ≤ k < ksub_ → 0 ≤ j < d →
  0 ≤ c0 + k * d + j < len.
Proof. unfold ksub_. intros. nia. Qed.

(** After the first loop of [MStep]: the count of a cluster is the
    number of points with its code, and its block holds their sum. *)
Lemma MStep_sums_assigned (x0 : list Q) (xo : Z) (centroids : list Q) (c0 : Z)
    (codes : list Z) (co : Z) (d n : Z) :
  0 ≤ c0 → c0 + ksub_ * d ≤ Z.of_nat (length centroids) → 0 ≤ n →
  let r := MStep_sums x0 xo centroids c0 codes co d n in
  length r.1 = length centroids ∧
  (∀ k, 0 ≤ k < ksub_ → rdz r.2 k = assigned_count codes co n k) ∧
  (∀ k j, 0 ≤ k < ksub_ → 0 ≤ j < d →
     (rdq r.1 (c0 + k * d + j) == assigned_sum x0 xo codes co d n k j)%Q).
Proof.
  intros Hc0 Hlen Hn. unfold MStep_sums.
  set (body := fun (i : Z) '(x, centroids, nelts) => _).
  set (cen0 := memset0 centroids c0 (d * ksub_)).
  set (nelts0 := replicate (Z.to_nat ksub_) 0).
  pose (P := fun (i : Z) (s : Z * list Q * list Z) =>
    s.1.1 = xo + i * d ∧
    Z.of_nat (length s.2) = ksub_ ∧
    length s.1.2 = length centroids ∧
    (∀ k, 0 ≤ k < ksub_ → rdz s.2 k = assigned_count codes co i k) ∧
    (∀ k j, 0 ≤ k < ksub_ → 0 ≤ j < d →
       (rdq s.1.2 (c0 + k * d + j) == assigned_sum x0 xo codes co d i k j)%Q)).
  assert (P n (for_ n body (xo, cen0, nelts0))) as HP.
  { apply for_ind; [done| |].
    - unfold P, nelts0, cen0; cbn [fst snd]. split_and!.
      + lia.
      + rewrite length_replicate. unfold ksub_. lia.
      + unfold memset0. apply (store_loop_length _ c0 (fun _ => 0%Q)).
      + intros k Hk. unfold assigned_count. rewrite zsum_0. apply rd_replicate.
      + intros k j Hk Hj. unfold assigned_sum. rewrite qsum_0.
        rewrite memset0_rd; [reflexivity|]. unfold ksub_ in *. nia.
    - intros i [[x cen] nelts] Hi (Hx & Hln & Hlc & Hcnt & Hsum). cbn [fst snd] in *.
      subst x. unfold body, P; cbn [fst snd].
      set (k' := rdb codes (co + i)).
      assert (0 ≤ k' < ksub_) as Hk'.
      { unfold k', rdb, uint8, ksub_. apply Z.mod_pos_bound. lia. }
      set (g := fun (j : Z) (v : Q) => (v + rdq x0 (xo + i * d + j))%Q).
      change (for_ d _ cen) with
        (for_ d (fun j cen1 => wr cen1 (c0 + k' * d + j) (g j (rdq cen1 (c0 + k' * d + j)))) cen).
      split_and!.
      + lia.
      + by rewrite length_wr.
      + by rewrite modify_loop_length.
      + intros k Hk. rewrite assigned_count_succ by lia. fold k'.
        destruct (Z.eqb_spec k' k) as [->|Hne].
        * rewrite rdz_wr_eq by lia. rewrite Hcnt by done. done.
        * rewrite rdz_wr_ne by done. rewrite Hcnt by done. lia.
      + intros k j Hk Hj. rewrite assigned_sum_succ by lia. fold k'.
        rewrite modify_loop_rd by lia.
        destruct (Z.eqb_spec k' k) as [->|Hne].
        * rewrite bool_decide_eq_true_2.
          -- unfold g. rewrite Hsum by done.
             replace (c0 + k * d + j - (c0 + k * d)) with j by lia. reflexivity.
          -- split; [lia|]. rewrite Hlc. by apply block_cell_in_range.
        * rewrite bool_decide_eq_false_2.
          -- rewrite Hsum by done. ring.
          -- intros [Hr _]. pose proof (disjoint_blocks k' k d (c0 + k * d + j - (c0 + k' * d)) j).
             lia. }
  destruct (for_ n body _) as [[x cen] nelts].
  destruct HP as (_ & _ & Hlc & Hcnt & Hsum). cbn [fst snd] in *. done.
Qed.

(** The second loop divides the block of every cluster with points by
    its count and leaves the others. *)
Lemma MStep_means_divides (cen : list Q) (c0 : Z) (nelts : list Z) (d : Z) :
  0 ≤ c0 → c0 + ksub_ * d ≤ Z.of_nat (length cen) →
  ∃ means, MStep_means cen c0 nelts d = Done means ∧
    length means = length cen ∧
    ∀ k j, 0 ≤ k < ksub_ → 0 ≤ j < d →
      rdq means (c0 + k * d + j) =
      if rdz nelts k =? 0 then rdq cen (c0 + k * d + j)
      else (rdq cen (c0 + k * d + j) / inject_Z (rdz nelts k))%Q.
Proof.
  intros Hc0 Hlen. unfold MStep_means.
  set (body := fun (k : Z) '(c, centroids) => _).
  pose (P := fun (k : Z) (s : Z * list Q) =>
    s.1 = c0 + k * d ∧ length s.2 = length cen ∧
    ∀ k' j, 0 ≤ k' < ksub_ → 0 ≤ j < d →
      rdq s.2 (c0 + k' * d + j) =
      if bool_decide (k' < k) && negb (rdz nelts k' =? 0)
      then (rdq cen (c0 + k' * d + j) / inject_Z (rdz nelts k'))%Q
      else rdq cen (c0 + k' * d + j)).
  destruct (for_M_total P ksub_ body (c0, cen)) as ([c means] & -> & _ & Hl & Hm).
  - unfold ksub_. lia.
  - unfold P; cbn [fst snd]. split_and!; [lia|done|].
    intros k' j Hk' Hj. rewrite bool_decide_eq_false_2 by lia. done.
  - intros k [c cen'] Hk (Hc & Hl & Hm). cbn [fst snd] in *. subst c. unfold body.
    destruct (Qeq_bool (inject_Z (rdz nelts k)) 0) eqn:E; cbn [negb].
    + eexists. split; [reflexivity|]. unfold P; cbn [fst snd]. split_and!; [lia|done|].
      intros k' j Hk' Hj. rewrite Hm by done.
      destruct (decide (k' = k)) as [->|Hne].
      * assert (rdz nelts k = 0) as ->.
        { destruct (decide (rdz nelts k = 0)) as [?|Hnz]; [done|].
          apply inject_Z_nonzero in Hnz. congruence. }
        by rewrite !andb_false_r.
      * destruct (rdz nelts k' =? 0); rewrite ?andb_false_r, ?andb_true_r; [done|].
        repeat case_bool_decide; try done; lia.
    + rewrite means_inner_loop by done. rewrite bind_Done.
      eexists. split; [reflexivity|]. unfold P; cbn [fst snd].
      set (g := fun (_ : Z) (v : Q) => (v / inject_Z (rdz nelts k))%Q).
      change (for_ d _ cen') with
        (for_ d (fun j cen1 => wr cen1 (c0 + k * d + j) (g j (rdq cen1 (c0 + k * d + j)))) cen').
      split_and!; [lia|by rewrite modify_loop_length|].
      intros k' j Hk' Hj.
      destruct (decide (0 ≤ d)) as [Hd|Hd]; [|lia].
      rewrite modify_loop_rd by done. rewrite Hm by done.
      apply inject_Z_nonzero in E.
      destruct (decide (k' = k)) as [->|Hne].
      * rewrite bool_decide_eq_true_2 by
          (split; [lia|rewrite Hl; by apply block_cell_in_range]).
        rewrite (bool_decide_eq_false_2 (k < k)) by lia.
        rewrite (bool_decide_eq_true_2 (k < k + 1)) by lia.
        destruct (Z.eqb_spec (rdz nelts k) 0); [done|]. done.
      * rewrite bool_decide_eq_false_2.
        -- destruct (rdz nelts k' =? 0); rewrite ?andb_false_r, ?andb_true_r; [done|].
           repeat case_bool_decide; try done; lia.
        -- intros [Hr _].
           pose proof (disjoint_blocks k k' d (c0 + k' * d + j - (c0 + k * d)) j). lia.
  - simpl. eexists. split; [reflexivity|]. split; [done|].
    intros k j Hk Hj. rewrite Hm by done.
    rewrite bool_decide_eq_true_2 by lia. simpl.
    by destruct (rdz nelts k =? 0).
Qed.

(** Counts and means after the first two loops of [MStep]. *)
Lemma MStep_means_of_assigned_cells (x0 : list Q) (xo : Z) (centroids : list Q) (c0 : Z)
    (codes : list Z) (co : Z) (d n : Z) :
  0 ≤ c0 → c0 + ksub_ * d ≤ Z.of_nat (length centroids) → 0 ≤ n →
  let sums := (MStep_sums x0 xo centroids c0 codes co d n).1 in
  let nelts := (MStep_sums x0 xo centroids c0 codes co d n).2 in
  (∀ k, 0 ≤ k < ksub_ → rdz nelts k = assigned_count codes co n k) ∧
  ∃ means, MStep_means sums c0 nelts d = Done means ∧
    length means = length centroids ∧
    ∀ k j, 0 ≤ k < ksub_ → 0 ≤ j < d → assigned_count codes co n k ≠ 0 →
      (rdq means (c0 + k * d + j) ==
       assigned_sum x0 xo codes co d n k j / inject_Z (assigned_count codes co n k))%Q.
Proof.
  intros Hc0 Hlen Hn sums nelts.
  destruct (MStep_sums_assigned x0 xo centroids c0 codes co d n Hc0 Hlen Hn)
    as (Hls & Hcnt & Hsum).
  fold sums in Hls, Hsum. fold nelts in Hcnt. split; [exact Hcnt|].
  destruct (MStep_means_divides sums c0 nelts d Hc0 ltac:(rewrite Hls; done))
    as (means & Hmeans & Hlm & Hdiv).
  exists means. split; [exact Hmeans|]. split; [congruence|].
  intros k j Hk Hj Hnz. rewrite Hdiv by done. rewrite Hcnt by done.
  destruct (Z.eqb_spec (assigned_count codes co n k) 0); [done|].
  rewrite Hsum by done. reflexivity.
Qed.

(** X8.  The first two loops of [MStep] compute means: the count of a
    cluster is the number of points that carry its code, and every
    coordinate of a cluster that has points is the sum of that
    coordinate over its points divided by their number. *)
Theorem MStep_means_of_assigned (x0 : list Q) (xo : Z) (centroids : list Q) (c0 : Z)
    (codes : list Z) (co : Z) (d n : Z) :
  0 ≤ c0 → c0 + ksub_ * d ≤ Z.of_nat (length centroids) → 0 ≤ n →
  let sums := (MStep_sums x0 xo centroids c0 codes co d n).1 in
  let nelts := (MStep_sums x0 xo centroids c0 codes co d n).2 in
  (∀ k, 0 ≤ k < ksub_ → rdz nelts k = assigned_count codes co n k) ∧
  ∃ means, MStep_means sums c0 nelts d = Done means ∧
    length means = length centroids ∧
    ∀ k j, 0 ≤ k < ksub_ → 0 ≤ j < d → assigned_count codes co n k ≠ 0 →
      (rdq means (c0 + k * d + j) ==
       assigned_sum x0 xo codes co d n k j / inject_Z (assigned_count codes co n k))%Q.
Proof. apply MStep_means_of_assigned_cells. Qed.

End MeansOfAssigned.

(** ** What the clustering writes *)

(** Reduces a bind whose first computation is a constructor. *)
Ltac obind := cbn [mbind outcome_bind mret outcome_ret].

Section Frame.
Context {G : Type} `{Rng G} `{Consts}.

Lemma outside_blocks_cell (c0 d p k j : Z) :
  outside_blocks c0 d p → 0 ≤ k < ksub_ → 0 ≤ j < d → c0 + k * d + j ≠ p.
Proof. unfold outside_blocks, ksub_. intros Hp Hk Hj <-. apply Hp. nia. Qed.

Lemma MStep_sums_frame (x0 : list Q) (xo : Z) (centroids : list Q) (c0 : Z)
    (codes : list Z) (co : Z) (d n : Z) (p : Z) :
  let r := MStep_sums x0 xo centroids c0 codes co d n in
  length r.1 = length centroids ∧
  (outside_blocks c0 d p → rdq r.1 p = rdq centroids p).
Proof.
  unfold MStep_sums.
  set (body := fun (i : Z) '(x, centroids, nelts) => _).
  set (cen0 := memset0 centroids c0 (d * ksub_)).
  pose (P := fun (s : Z * list Q * list Z) =>
    length s.1.2 = length centroids ∧
    (outside_blocks c0 d p → rdq s.1.2 p = rdq centroids p)).
  assert (P (for_ n body (xo, cen0, replicate (Z.to_nat ksub_) 0))) as HP.
  { apply for_inv.
    - unfold P, cen0; cbn [fst snd]. split.
      + unfold memset0. apply (store_loop_length _ c0 (fun _ => 0%Q)).
      + intros Hp. unfold memset0.
        apply (rewrite_loop_frame (d * ksub_) c0 p (fun _ _ => 0%Q)).
        intros j Hj Heq. apply Hp. lia.
    - intros i [[x cen] nelts] Hi [Hl Hf]. cbn [fst snd] in *. unfold body, P; cbn [fst snd].
      assert (0 ≤ rdb codes (co + i) < ksub_) as Hk'.
      { unfold rdb, uint8, ksub_. apply Z.mod_pos_bound. lia. }
      split.
      + rewrite <- Hl. apply (for_inv (fun r => length r = length cen)); [done|].
        intros j r _ Hr. by rewrite length_wr.
      + intros Hp. rewrite <- Hf by done.
        apply (rewrite_loop_frame d (c0 + rdb codes (co + i) * d) p
                 (fun j cen1 => (rdq cen1 (c0 + rdb codes (co + i) * d + j) + rdq x0 (x + j))%Q)).
        intros j Hj. by apply outside_blocks_cell. }
  destruct (for_ n body _) as [[x cen] nelts]. exact HP.
Qed.

Lemma MStep_means_frame (cen : list Q) (c0 : Z) (nelts : list Z) (d : Z) (means : list Q)
    (p : Z) :
  MStep_means cen c0 nelts d = Done means →
  length means = length cen ∧ (outside_blocks c0 d p → rdq means p = rdq cen p).
Proof.
  unfold MStep_means.
  set (body := fun (k : Z) '(c, centroids) => _).
  destruct (for_M ksub_ body (c0, cen)) as [[c cen']| |] eqn:E; obind; try done.
  intros [= <-].
  pose (P := fun (k : Z) (s : Z * list Q) =>
    s.1 = c0 + k * d ∧ length s.2 = length cen ∧
    (outside_blocks c0 d p → rdq s.2 p = rdq cen p)).
  enough (P ksub_ (c, cen')) as (_ & Hl & Hf) by done.
  apply (for_M_partial P ksub_ body (c0, cen)); [unfold ksub_; lia| |..|exact E].
  - unfold P; cbn [fst snd]. split_and!; [lia|done|done].
  - intros k [c1 cen1] [c2 cen2] Hk (Hc & Hl & Hf). cbn [fst snd] in *. subst c1.
    unfold body. destruct (Qeq_bool (inject_Z (rdz nelts k)) 0) eqn:Ez; cbn [negb].
    + obind. intros [= <- <-]. unfold P; cbn [fst snd]. split_and!; [lia|done|done].
    + rewrite means_inner_loop by done. rewrite bind_Done. intros [= <- <-].
      unfold P; cbn [fst snd]. split_and!; [lia| |].
      * rewrite <- Hl. apply (for_inv (fun r => length r = length cen1)); [done|].
        intros j r _ Hr. by rewrite length_wr.
      * intros Hp. rewrite <- Hf by done.
        apply (rewrite_loop_frame d (c0 + k * d) p
                 (fun j cen3 => (rdq cen3 (c0 + k * d + j) / inject_Z (rdz nelts k))%Q)).
        intros j Hj. by apply outside_blocks_cell.
Qed.

Lemma donor_range (fuel : nat) (n : Z) (nelts : list Z) (m : Z) (g : G) (m' : Z) (g' : G) :
  0 ≤ m < ksub_ → donor fuel n nelts m g = Done (m', g') → 0 ≤ m' < ksub_.
Proof.
  revert m g. induction fuel as [|f IH]; intros m g Hm Hd; [done|].
  rewrite donor_unfold in Hd. destruct (Qle_bool _ _).
  - apply (IH (Z.rem (m + 1) ksub_) (runiform g).2); [|done].
    apply Z.rem_bound_pos; unfold ksub_ in *; lia.
  - by simplify_eq.
Qed.

Lemma reseed_body_frame (fuel : nat) (c0 d n k : Z) (s s' : list Q * list Z * G) (p : Z) :
  0 ≤ k < ksub_ →
  reseed_body fuel c0 d n k s = Done s' →
  length s'.1.1 = length s.1.1 ∧
  (outside_blocks c0 d p → rdq s'.1.1 p = rdq s.1.1 p).
Proof.
  intros Hk. destruct s as [[cen nelts] g]. unfold reseed_body.
  destruct (rdz nelts k =? 0).
  - destruct (donor fuel n nelts 0 g) as [[m g']| |] eqn:Ed; obind; try done.
    intros [= <-]. cbn [fst snd].
    pose proof (donor_range fuel n nelts 0 g m g' ltac:(unfold ksub_; lia) Ed) as Hm.
    split; [apply split_centroid_length|].
    intros Hp. apply split_centroid_frame; intros j Hj; by apply outside_blocks_cell.
  - obind. by intros [= <-].
Qed.

Lemma MStep_frame (fuel : nat) (x0 : list Q) (xo : Z) (centroids : list Q)
    (c0 : Z) (codes : list Z) (co : Z) (d n : Z) (g : G) (c' : list Q) (g' : G) (p : Z) :
  MStep fuel x0 xo centroids c0 codes co d n g = Done (c', g') →
  length c' = length centroids ∧
  (outside_blocks c0 d p → rdq c' p = rdq centroids p).
Proof.
  unfold MStep, MStep_counts.
  pose proof (MStep_sums_frame x0 xo centroids c0 codes co d n p) as [Hls Hfs].
  destruct (MStep_sums x0 xo centroids c0 codes co d n) as [sums nelts]. cbn [fst snd] in *.
  destruct (MStep_means sums c0 nelts d) as [means| |] eqn:Em; obind; try done.
  destruct (MStep_means_frame sums c0 nelts d means p Em) as [Hlm Hfm].
  unfold MStep_reseed, reseed_pass.
  destruct (for_M ksub_ (reseed_body fuel c0 d n) (means, nelts, g))
    as [[[c1 n1] g1]| |] eqn:Er; obind; try done.
  intros [= <- <-].
  pose (P := fun (_ : Z) (s : list Q * list Z * G) =>
    length s.1.1 = length centroids ∧
    (outside_blocks c0 d p → rdq s.1.1 p = rdq centroids p)).
  apply (for_M_partial P ksub_ (reseed_body fuel c0 d n) (means, nelts, g) (c1, n1, g1));
    [unfold ksub_; lia| | |exact Er].
  - unfold P; cbn [fst snd]. split; [congruence|]. intros Hp. by rewrite Hfm, Hfs.
  - intros k s s' Hk [Hl Hf] Hb.
    destruct (reseed_body_frame fuel c0 d n k s s' p Hk Hb) as [Hl' Hf'].
    split; [congruence|]. intros Hp. by rewrite Hf', Hf.
Qed.

(** When [kmeans] returns, the buffer has its length and every cell
    outside the blocks its value; it throws nothing. *)
Lemma kmeans_frame (fuel : nat) (x : list Q) (xo : Z) (c : list Q) (c0 : Z)
    (n d : Z) (g : G) :
  match kmeans fuel x xo c c0 n d g with
  | Done (c', _) =>
      length c' = length c ∧
      ∀ p, ¬ (c0 ≤ p < c0 + ksub_ * d) → rdq c' p = rdq c p
  | Throw _ => False
  | OutOfFuel => True
  end.
Proof.
  pose proof (kmeans_no_throw fuel x xo c c0 n d g) as Hnt.
  destruct (kmeans fuel x xo c c0 n d g) as [[c' g']|e|] eqn:Ek; [|by eapply Hnt|done].
  clear Hnt. revert Ek. unfold kmeans. destruct (shuffle (seqZ 0 n) g) as [perm g1].
  set (cinit := for_ ksub_ _ c).
  assert (length cinit = length c ∧
          ∀ p, outside_blocks c0 d p → rdq cinit p = rdq c p) as [Hli Hfi].
  { unfold cinit.
    apply (for_inv (fun r => length r = length c ∧
                             ∀ p, outside_blocks c0 d p → rdq r p = rdq c p)); [done|].
    intros i r Hi [Hl Hf]. split; [by rewrite memcpy_length|].
    intros p Hp. rewrite <- Hf by done. unfold memcpy.
    apply (rewrite_loop_frame d (c0 + i * d) p
             (fun j _ => rdq x (xo + rdz perm i * d + j))).
    intros j Hj. by apply outside_blocks_cell. }
  match goal with |- context [for_M niter_ ?b ?s] =>
    set (body := b); set (s0 := s) end.
  destruct (for_M niter_ body s0) as [[[c1 codes1] g2]| |] eqn:El; obind; try done.
  intros [= <- <-].
  pose (P := fun (_ : Z) (s : list Q * list Z * G) =>
    length s.1.1 = length c ∧ ∀ p, outside_blocks c0 d p → rdq s.1.1 p = rdq c p).
  destruct (decide (0 ≤ niter_)) as [Hi|Hi].
  - apply (for_M_partial P niter_ body s0 (c1, codes1, g2)); [done|by split| |exact El].
    intros i [[c2 codes2] g3] [[c3 codes3] g4] _ [Hl Hf]. cbn [fst snd] in *. unfold body.
    destruct (MStep fuel x xo c2 c0 (Estep x xo c2 c0 codes2 0 d n) 0 d n g3)
      as [[c4 g5]| |] eqn:Em; obind; try done.
    intros [= <- <- <-]. unfold P; cbn [fst snd]. split.
    + destruct (MStep_frame _ _ _ _ _ _ _ _ _ _ _ _ 0 Em) as [Hl4 _]. congruence.
    + intros p Hp. destruct (MStep_frame _ _ _ _ _ _ _ _ _ _ _ _ p Em) as [_ Hf4].
      rewrite Hf4 by done. by apply Hf.
  - rewrite for_M_neg in El by lia. unfold s0 in El. simplify_eq. by split.
Qed.

(** X9.  [kmeans] throws nothing and writes the [ksub_] blocks of width
    [d] it is given and nothing else: when it returns, the buffer has
    its length and every cell outside [c0 .. c0 + ksub_ * d) its value.
    On [ksub_] points it returns, for every engine, once the donor
    search has [ksub_] units of fuel. *)
Theorem kmeans_writes_its_blocks `{!RngLaws G} (fuel : nat) (x : list Q) (xo : Z)
    (c : list Q) (c0 : Z) (n d : Z) (g : G) :
  (∀ e, kmeans fuel x xo c c0 n d g ≠ Throw e) ∧
  (∀ c' g', kmeans fuel x xo c c0 n d g = Done (c', g') →
     length c' = length c ∧
     ∀ p, ¬ (c0 ≤ p < c0 + ksub_ * d) → rdq c' p = rdq c p) ∧
  (n = ksub_ → ksub_ ≤ Z.of_nat fuel →
     ∃ c' g', kmeans fuel x xo c c0 n d g = Done (c', g')).
Proof.
  split; [intros e; apply kmeans_no_throw|]. split.
  - intros c' g' Hk. pose proof (kmeans_frame fuel x xo c c0 n d g) as Hf.
    by rewrite Hk in Hf.
  - intros Hn Hfuel.
    destruct (kmeans_total fuel x xo c c0 n d g Hn Hfuel) as [[c' g'] Hk]. eauto.
Qed.


End Frame.

(** ** An M step in which every cluster has a point *)

Section NoEmptyCluster.
Context {G : Type} `{Rng G} `{Consts}.

Lemma reseed_pass_nothing (fuel : nat) (cen : list Q) (c0 : Z) (nelts : list Z)
    (d n : Z) (g : G) :
  (∀ k, 0 ≤ k < ksub_ → rdz nelts k ≠ 0) →
  MStep_reseed fuel cen c0 nelts d n g = Done (cen, nelts, g).
Proof.
  intros Hnz. unfold MStep_reseed, reseed_pass.
  destruct (for_M_total (fun _ s => s = (cen, nelts, g)) ksub_
              (reseed_body fuel c0 d n) (cen, nelts, g)) as (s' & Hs' & ->);
    [unfold ksub_; lia|done| |exact Hs'].
  intros k s Hk ->. unfold reseed_body.
  destruct (Z.eqb_spec (rdz nelts k) 0) as [E|_]; [by apply Hnz in E|].
  by eexists.
Qed.

(** X14.  When every cluster has a point, [MStep] is its first two
    loops: it returns the means, for any fuel, and the engine as it
    was, no draw made. *)
Theorem MStep_without_empty_cluster (fuel : nat) (x0 : list Q) (xo : Z)
    (centroids : list Q) (c0 : Z) (codes : list Z) (co : Z) (d n : Z) (g : G) :
  0 ≤ c0 → c0 + ksub_ * d ≤ Z.of_nat (length centroids) → 0 ≤ n →
  (∀ k, 0 ≤ k < ksub_ → assigned_count codes co n k ≠ 0) →
  ∃ means,
    MStep_means (MStep_sums x0 xo centroids c0 codes co d n).1 c0
                (MStep_sums x0 xo centroids c0 codes co d n).2 d = Done means ∧
    MStep fuel x0 xo centroids c0 codes co d n g = Done (means, g) ∧
    ∀ k j, 0 ≤ k < ksub_ → 0 ≤ j < d →
      (rdq means (c0 + k * d + j) ==
       assigned_sum x0 xo codes co d n k j / inject_Z (assigned_count codes co n k))%Q.
Proof.
  intros Hc0 Hlen Hn Hall.
  destruct (MStep_means_of_assigned_cells x0 xo centroids c0 codes co d n Hc0 Hlen Hn)
    as (Hcnt & means & Hmeans & _ & Hdiv).
  exists means. split; [exact Hmeans|]. split.
  - unfold MStep, MStep_counts. revert Hcnt Hmeans.
    destruct (MStep_sums x0 xo centroids c0 codes co d n) as [sums nelts]. cbn [fst snd].
    intros Hcnt ->. obind.
    rewrite reseed_pass_nothing; [done|].
    intros k Hk. rewrite Hcnt by done. by apply Hall.
  - intros k j Hk Hj. apply Hdiv; [done..|]. by apply Hall.
Qed.

End NoEmptyCluster.

(** ** The distance on buffers that hold the coordinates *)

(** X11.  On two buffers that hold the [d] coordinates read, [distL2]
    is the squared L2 distance of the two sublists of length [d] from
    the offsets on. *)
Theorem distL2_sublists (x : list Q) (xo : Z) (y : list Q) (yo d : Z) :
  0 ≤ xo → 0 ≤ yo → 0 ≤ d →
  xo + d ≤ Z.of_nat (length x) → yo + d ≤ Z.of_nat (length y) →
  (distL2 x xo y yo d ==
   squared_l2 (take (Z.to_nat d) (drop (Z.to_nat xo) x))
              (take (Z.to_nat d) (drop (Z.to_nat yo) y)))%Q.
Proof.
  intros Hxo Hyo Hd Hx Hy. rewrite distL2_squared_l2.
  by rewrite !slice_sublist by done.
Qed.

(** ** Encoding with a table that was never trained *)

Section Untrained.
Context {G : Type} `{Rng G} `{Consts}.

(** X12.  The constructor fills the table with zeros, so all centroids
    of a subspace are at the same distance from any slice, and the
    strict comparison of [assign_centroid] keeps the first: a quantizer
    that was never trained encodes every vector as the code of zeros. *)
Theorem compute_code_untrained (dim dsub : Z) (x : list Q) (xo : Z) (code : list Z)
    (co : Z) :
  let pq : ProductQuantizer G := ProductQuantizer_ctor dim dsub in
  0 ≤ co → co + nsubq_ pq ≤ Z.of_nat (length code) →
  ∀ m, 0 ≤ m < nsubq_ pq → rdz (compute_code pq x xo code co) (co + m) = 0.
Proof.
  intros pq Hco Hlen m Hm. rewrite compute_code_rd by done. symmetry.
  eapply first_nearest_unique; [|apply subspace_code_spec].
  split; [unfold ksub_; lia|]. split; [|intros i Hi; lia].
  intros i _. unfold subspace_dist.
  rewrite (distL2_ext x (xo + m * dsub_ pq) (centroids_ pq) (centroids_ pq)
             (get_centroids_const pq m 0) (get_centroids_const pq m i)).
  - apply Qle_refl.
  - intros j _. unfold pq, ProductQuantizer_ctor. cbv zeta.
    destruct (Z.rem dim dsub =? 0); cbn [centroids_]; unfold rdq; by rewrite !rd_replicate.
Qed.

End Untrained.

(** ** The table size [load] computes *)


(** ** The properties above, on concrete data *)

Lemma assign_centroid_returns_least_witness :
  0 ≤ 0 < Z.of_nat (length [9]) ∧
  0 ≤ rdz (assign_centroid [3%Q; 5%Q] 0 (centroids_ test_pq) 0 [9] 0 2).2 0 < ksub_.
Proof.
  assert (0 ≤ 0 < Z.of_nat (length [9])) as Hco by (simpl; lia).
  split; [exact Hco|].
  exact (proj1 (proj2 (assign_centroid_returns_least
                         [3%Q; 5%Q] 0 (centroids_ test_pq) 0 [9] 0 2 Hco))).
Defined.

Lemma Estep_assigns_nearest_witness :
  0 ≤ 0 ∧ 0 + 2 ≤ Z.of_nat (length [0; 0]) ∧
  length (Estep [1%Q; 2%Q; 3%Q; 4%Q] 0 (centroids_ test_pq) 0 [0; 0] 0 2 2) = length [0; 0].
Proof.
  assert (0 ≤ 0) as Hco by lia.
  assert (0 + 2 ≤ Z.of_nat (length [0; 0])) as Hlen by (simpl; lia).
  split; [exact Hco|]. split; [exact Hlen|].
  exact (proj1 (proj2 (Estep_assigns_nearest
                         [1%Q; 2%Q; 3%Q; 4%Q] 0 (centroids_ test_pq) 0 [0; 0] 0 2 2 Hco Hlen))).
Defined.

Lemma compute_codes_stride_witness :
  0 ≤ 0 ∧ 0 ≤ nsubq_ test_pq ∧ 0 ≤ 2 ∧
  0 + 2 * nsubq_ test_pq ≤ Z.of_nat (length [0; 0; 0; 0]) ∧
  length (compute_codes test_pq [3%Q; 5%Q; 1%Q; 2%Q; 2%Q; 2%Q] 0 [0; 0; 0; 0] 0 2)
  = length [0; 0; 0; 0].
Proof.
  assert (0 ≤ 0) as Hco by lia.
  assert (0 ≤ nsubq_ test_pq) as Hq by (simpl; lia).
  assert (0 ≤ 2) as Hn by lia.
  assert (0 + 2 * nsubq_ test_pq ≤ Z.of_nat (length [0; 0; 0; 0])) as Hlen by (simpl; lia).
  split; [exact Hco|]. split; [exact Hq|]. split; [exact Hn|]. split; [exact Hlen|].
  exact (proj1 (proj2 (compute_codes_stride
                         test_pq [3%Q; 5%Q; 1%Q; 2%Q; 2%Q; 2%Q] 0 [0; 0; 0; 0] 0 2
                         Hco Hq Hn Hlen))).
Defined.

Lemma addcode_adds_scaled_centroid_witness :
  1 ≤ nsubq_ test_pq ∧ 0 < dsub_ test_pq ∧ 0 < lastdsub_ test_pq ≤ dsub_ test_pq ∧
  (nsubq_ test_pq - 1) * dsub_ test_pq + lastdsub_ test_pq
    ≤ Z.of_nat (length [1%Q; 2%Q; 3%Q]) ∧
  length (addcode test_pq [1%Q; 2%Q; 3%Q] [5; 6] 0 0 2%Q) = length [1%Q; 2%Q; 3%Q].
Proof.
  assert (1 ≤ nsubq_ test_pq) as Hq by (simpl; lia).
  assert (0 < dsub_ test_pq) as Hw by (simpl; lia).
  assert (0 < lastdsub_ test_pq ≤ dsub_ test_pq) as Hl by (simpl; lia).
  assert ((nsubq_ test_pq - 1) * dsub_ test_pq + lastdsub_ test_pq
            ≤ Z.of_nat (length [1%Q; 2%Q; 3%Q])) as Hlen by (simpl; lia).
  split; [exact Hq|]. split; [exact Hw|]. split; [exact Hl|]. split; [exact Hlen|].
  exact (proj1 (addcode_adds_scaled_centroid
                  test_pq [1%Q; 2%Q; 3%Q] [5; 6] 0 0 2%Q Hq Hw Hl Hlen)).
Defined.

Lemma dot_addcode_mulcode_witness :
  well_shaped test_pq ∧ dim_ test_pq ≤ Z.of_nat (length [1%Q; 2%Q; 3%Q]) ∧
  (dot (dim_ test_pq) [4%Q; 5%Q; 6%Q] (addcode test_pq [1%Q; 2%Q; 3%Q] [5%Z; 6%Z] 0%Z 0%Z 2%Q) ==
   dot (dim_ test_pq) [4%Q; 5%Q; 6%Q] [1%Q; 2%Q; 3%Q] +
   mulcode test_pq [4%Q; 5%Q; 6%Q] [5%Z; 6%Z] 0%Z 0%Z 2%Q)%Q.
Proof.
  assert (well_shaped test_pq) as Hws by (unfold well_shaped; vm_compute; intuition discriminate).
  assert (dim_ test_pq ≤ Z.of_nat (length [1%Q; 2%Q; 3%Q])) as Hlen by (simpl; lia).
  split; [exact Hws|]. split; [exact Hlen|].
  exact (dot_addcode_mulcode test_pq [4%Q; 5%Q; 6%Q] [1%Q; 2%Q; 3%Q] [5; 6] 0 0 2%Q Hws Hlen).
Defined.

Lemma addcode_twice_witness :
  well_shaped test_pq ∧ dim_ test_pq ≤ Z.of_nat (length [1%Q; 2%Q; 3%Q]) ∧
  length (addcode test_pq (addcode test_pq [1%Q; 2%Q; 3%Q] [5; 6] 0 0 2%Q) [5; 6] 0 0 3%Q) =
  length (addcode test_pq [1%Q; 2%Q; 3%Q] [5; 6] 0 0 (2 + 3)%Q).
Proof.
  assert (well_shaped test_pq) as Hws by (unfold well_shaped; vm_compute; intuition discriminate).
  assert (dim_ test_pq ≤ Z.of_nat (length [1%Q; 2%Q; 3%Q])) as Hlen by (simpl; lia).
  split; [exact Hws|]. split; [exact Hlen|].
  exact (proj1 (addcode_twice test_pq [1%Q; 2%Q; 3%Q] [5; 6] 0 0 2%Q 3%Q Hws Hlen)).
Defined.

Lemma MStep_means_of_assigned_witness :
  0 ≤ 0 ∧ 0 + ksub_ * 2 ≤ Z.of_nat (length (centroids_ test_pq)) ∧ 0 ≤ 2 ∧
  ∀ k, 0 ≤ k < ksub_ →
    rdz (MStep_sums [1%Q; 2%Q; 3%Q; 4%Q] 0 (centroids_ test_pq) 0 [0; 1] 0 2 2).2 k =
    assigned_count [0; 1] 0 2 k.
Proof.
  assert (0 ≤ 0) as Hc0 by lia.
  assert (0 + ksub_ * 2 ≤ Z.of_nat (length (centroids_ test_pq))) as Hlen
    by (vm_compute; discriminate).
  assert (0 ≤ 2) as Hn by lia.
  split; [exact Hc0|]. split; [exact Hlen|]. split; [exact Hn|].
  exact (proj1 (MStep_means_of_assigned
                  [1%Q; 2%Q; 3%Q; 4%Q] 0 (centroids_ test_pq) 0 [0; 1] 0 2 2 Hc0 Hlen Hn)).
Defined.

Lemma distL2_sublists_witness :
  0 ≤ 1 ∧ 0 ≤ 0 ∧ 0 ≤ 2 ∧
  1 + 2 ≤ Z.of_nat (length [1%Q; 2%Q; 3%Q]) ∧ 0 + 2 ≤ Z.of_nat (length [4%Q; 5%Q; 6%Q]) ∧
  (distL2 [1%Q; 2%Q; 3%Q] 1 [4%Q; 5%Q; 6%Q] 0 2 == squared_l2 [2%Q; 3%Q] [4%Q; 5%Q])%Q.
Proof.
  assert (0 ≤ 1) as Hxo by lia.
  assert (0 ≤ 0) as Hyo by lia.
  assert (0 ≤ 2) as Hd by lia.
  assert (1 + 2 ≤ Z.of_nat (length [1%Q; 2%Q; 3%Q])) as Hx by (simpl; lia).
  assert (0 + 2 ≤ Z.of_nat (length [4%Q; 5%Q; 6%Q])) as Hy by (simpl; lia).
  split; [exact Hxo|]. split; [exact Hyo|]. split; [exact Hd|]. split; [exact Hx|].
  split; [exact Hy|].
  exact (distL2_sublists [1%Q; 2%Q; 3%Q] 1 [4%Q; 5%Q; 6%Q] 0 2 Hxo Hyo Hd Hx Hy).
Defined.

Lemma compute_code_untrained_witness :
  0 ≤ 0 ∧
  0 + nsubq_ (ProductQuantizer_ctor (G := Z) (H0 := test_consts) 3 2)
    ≤ Z.of_nat (length [7; 7]) ∧
  0 ≤ 1 < nsubq_ (ProductQuantizer_ctor (G := Z) (H0 := test_consts) 3 2) ∧
  rdz (compute_code (ProductQuantizer_ctor (G := Z) (H0 := test_consts) 3 2)
         [3%Q; 5%Q; 1%Q] 0 [7; 7] 0) (0 + 1) = 0.
Proof.
  assert (0 ≤ 0) as Hco by lia.
  assert (0 + nsubq_ (ProductQuantizer_ctor (G := Z) (H0 := test_consts) 3 2)
            ≤ Z.of_nat (length [7; 7])) as Hlen by (vm_compute; discriminate).
  assert (0 ≤ 1 < nsubq_ (ProductQuantizer_ctor (G := Z) (H0 := test_consts) 3 2)) as Hm
    by (vm_compute; split; [discriminate|reflexivity]).
  split; [exact Hco|]. split; [exact Hlen|]. split; [exact Hm|].
  exact (compute_code_untrained (H0 := test_consts) 3 2 [3%Q; 5%Q; 1%Q] 0 [7; 7] 0 Hco Hlen 1 Hm).
Defined.

Lemma MStep_without_empty_cluster_witness :
  0 ≤ 0 ∧ 0 + ksub_ * 1 ≤ Z.of_nat (length (replicate 256 0%Q)) ∧ 0 ≤ 256 ∧
  (∀ k, 0 ≤ k < ksub_ → assigned_count (seqZ 0 256) 0 256 k ≠ 0) ∧
  ∃ means,
    MStep (G := Z) (H0 := test_consts) 0 (inject_Z <$> seqZ 0 256) 0 (replicate 256 0%Q) 0
      (seqZ 0 256) 0 1 256 7 = Done (means, 7).
Proof.
  assert (0 ≤ 0) as Hc0 by lia.
  assert (0 + ksub_ * 1 ≤ Z.of_nat (length (replicate 256 0%Q))) as Hlen
    by (vm_compute; discriminate).
  assert (0 ≤ 256) as Hn by lia.
  assert (∀ k, 0 ≤ k < ksub_ → assigned_count (seqZ 0 256) 0 256 k ≠ 0) as Hall.
  { apply (proj1 (Forall_seqZ (fun k => assigned_count (seqZ 0 256) 0 256 k ≠ 0) 0 ksub_)).
    refine (bool_decide_unpack _ _). vm_compute. exact I. }
  split; [exact Hc0|]. split; [exact Hlen|]. split; [exact Hn|]. split; [exact Hall|].
  destruct (MStep_without_empty_cluster (G := Z) (H0 := test_consts) 0
              (inject_Z <$> seqZ 0 256) 0 (replicate 256 0%Q) 0 (seqZ 0 256) 0 1 256 7
              Hc0 Hlen Hn Hall) as (means & _ & HM & _).
  exists means. exact HM.
Defined.

Lemma kmeans_writes_its_blocks_witness :
  256 = ksub_ ∧ ksub_ ≤ Z.of_nat 256 ∧
  ∃ c' g', kmeans (G := Z) (H0 := test_consts) 256 (replicate 256 1%Q) 0
             (replicate 256 0%Q) 0 256 1 1234 = Done (c', g').
Proof.
  assert (256 = ksub_) as Hn by reflexivity.
  assert (ksub_ ≤ Z.of_nat 256) as Hf by (unfold ksub_; lia).
  split; [exact Hn|]. split; [exact Hf|].
  exact (proj2 (proj2 (kmeans_writes_its_blocks (G := Z) (H0 := test_consts) 256
                         (replicate 256 1%Q) 0 (replicate 256 0%Q) 0 256 1 1234)) Hn Hf).
Defined.
